(** * HamLib utility functions: a shallow embedding of [hamlib_utils.py]

    The development embeds the text-processing core of
    [hamlib/qiskit/hamlib_utils.py] (format detector, format normaliser,
    term parser, qubit count, instance-name parser and variable-range
    aggregator) and states the properties of its specification as
    theorems about the embedded functions.

    Conventions of the embedding.
    - Python text ([str]) is a list of characters.  A character is an
      [ascii], read as a code point below 256; the character classes of
      the [re] module and of [str.strip]/[str.split] are the Unicode
      ones restricted to that range.
    - The detector and the normaliser decode a [bytes] argument on
      entry and the normaliser encodes its result; for these two the
      transcoding is left out and they work on text.  The term parser,
      whose errors are a subject of the specification, takes text or
      bytes ([pydata]) and decodes with a function [decode] that can
      fail.
    - A Python [dict] keyed by qubit index is a [gmap Z]; a [dict] whose
      iteration order reaches the output is an insertion-ordered
      association list ([Dict] below).
    - An exception is a [Raise] in the result type [result].
    - [int] on a run of digits raises [ValueError] when the run is
      longer than the limit of the interpreter ([max_str_digits], 4300
      digits unless set otherwise): [int_of_str].  [int_of_digits] is
      the value [int] returns when it returns, and [record_operator]
      and [parse_operators] are the inner loop of the term parser on
      tokens that [int] accepts; the term parser itself runs the loop
      with the check ([record_operators_checked]). *)

From Stdlib Require Import ZArith Ascii String Sorted Permutation.
From stdpp Require Import gmap strings list fin_maps.

Abbreviation str := (list ascii).

(** String literals stand for their list of characters. *)
Coercion list_ascii_of_string : string >-> list.
#[local] Arguments pair {_ _} & _ _.
#[local] Arguments cons {_} & _ _.
#[local] Arguments Some {_} & _.

(** ** Characters and the [str] methods used by the module *)

Module Text.

(** [str.isspace] on one character, also the class [\s] of [re] for
    text patterns: TAB..CR, FS..US, SPACE, NEL and NBSP. *)
Definition isspace (c : ascii) : bool :=
  let n := nat_of_ascii c in
  ((9 <=? n) && (n <=? 13)) || ((28 <=? n) && (n <=? 32))
  || (n =? 133) || (n =? 160).

(** The class [\d] of [re]: below 256 the decimal digits are 0..9. *)
Definition isdigit (c : ascii) : bool :=
  let n := nat_of_ascii c in (48 <=? n) && (n <=? 57).

Definition digit_value (c : ascii) : Z := Z.of_nat (nat_of_ascii c) - 48.

(** The value [int(s)] returns on a run of decimal digits, when it
    returns; [int_of_str] below has the error of a run that is too
    long. *)
Definition int_of_digits (s : str) : Z :=
  foldl (fun acc c => 10 * acc + digit_value c)%Z 0%Z s.

(** [c in s]. *)
Definition contains (c : ascii) (s : str) : bool :=
  existsb (Ascii.eqb c) s.

(** [s.find(c)]; [None] stands for the result -1. *)
Fixpoint find (c : ascii) (s : str) : option nat :=
  match s with
  | [] => None
  | a :: s' => if Ascii.eqb a c then Some 0 else S <$> find c s'
  end.

(** [s.lstrip()], [s.rstrip()] and [s.strip()]. *)
Fixpoint lstrip (s : str) : str :=
  match s with
  | [] => []
  | c :: s' => if isspace c then lstrip s' else s
  end.

Definition rstrip (s : str) : str := rev (lstrip (rev s)).

Definition strip (s : str) : str := rstrip (lstrip s).

(** [s.split(sep)] for a one-character separator: one more piece than
    there are separators, empty pieces kept. *)
Fixpoint split (sep : ascii) (s : str) : list str :=
  match s with
  | [] => [[]]
  | c :: s' =>
      if Ascii.eqb c sep then [] :: split sep s'
      else match split sep s' with
           | w :: ws => (c :: w) :: ws
           | [] => [[c]]
           end
  end.

(** [s.split()]: the maximal runs of non-whitespace characters. *)
Fixpoint split_ws (s : str) : list str :=
  match s with
  | [] => []
  | c :: s' =>
      if isspace c then split_ws s'
      else match s' with
           | [] => [[c]]
           | c' :: _ =>
               if isspace c' then [c] :: split_ws s'
               else match split_ws s' with
                    | w :: ws => (c :: w) :: ws
                    | [] => [[c]]
                    end
           end
  end.

(** [sep.join(l)]. *)
Fixpoint join (sep : str) (l : list str) : str :=
  match l with
  | [] => []
  | [w] => w
  | w :: ws => w ++ sep ++ join sep ws
  end.

End Text.

(** ** Insertion-ordered dictionaries *)

Module Dict.
Section Dict.
Context {V : Type}.

Definition t := list (str * V).

(** [d.get(k)]. *)
Fixpoint get (d : t) (k : str) : option V :=
  match d with
  | [] => None
  | (k', v) :: d' => if decide (k' = k) then Some v else get d' k
  end.

(** [d[k] = v]: a key already present keeps its position. *)
Fixpoint set (d : t) (k : str) (v : V) : t :=
  match d with
  | [] => [(k, v)]
  | (k', v') :: d' =>
      if decide (k' = k) then (k, v) :: d' else (k', v') :: set d' k v
  end.
End Dict.
Arguments t : clear implicits.
End Dict.

(** ** Exceptions *)

Inductive exn := ValueError | IndexError | OSError | UnicodeDecodeError.

Inductive result (A : Type) :=
| Ok (a : A)
| Raise (e : exn).
Arguments Ok {A} a.
Arguments Raise {A} e.

Definition bind {A B} (r : result A) (k : A -> result B) : result B :=
  match r with
  | Ok a => k a
  | Raise e => Raise e
  end.

Notation "'let*' x ':=' r 'in' k" := (bind r (fun x => k))
  (at level 10, x pattern, r at level 100, k at level 200).

Import Text.

(** ** The regular expressions of the module

    Each pattern of the module is embedded as the matcher the [re]
    engine runs for it: the characters are consumed left to right, a
    greedy item takes the longest run first and gives characters back
    only where the rest of the pattern can use them, a lazy item stops
    at the first place where the rest of the pattern matches.  The
    matchers return the captured groups. *)

Module Regex.

Definition newline : ascii := "010"%char.

(** A literal character of a pattern. *)
Definition expect (c : ascii) (s : str) : option str :=
  match s with
  | a :: s' => if Ascii.eqb a c then Some s' else None
  | [] => None
  end.

(** [c?] when nothing after it in the pattern can start with [c]. *)
Definition optional (c : ascii) (s : str) : str :=
  default s (expect c s).

(** [\d*] and [\d+], longest run. *)
Fixpoint skip_digits (s : str) : str :=
  match s with
  | c :: s' => if isdigit c then skip_digits s' else s
  | [] => []
  end.

Definition digits1 (s : str) : option str :=
  match s with
  | c :: s' => if isdigit c then Some (skip_digits s') else None
  | [] => None
  end.

(** [(\+|\-)?]. *)
Definition optional_sign (s : str) : str :=
  match expect "+" s with
  | Some s' => s'
  | None => optional "-" s
  end.

(** [(.*?)c] read after the opening bracket: the shortest run of
    characters other than the line feed that is followed by [c].
    Returns the run (the group) and the text after [c]. *)
Fixpoint lazy_dot_until (c : ascii) (s : str) : option (str * str) :=
  match s with
  | [] => None
  | a :: s' =>
      if Ascii.eqb a c then Some ([], s')
      else if Ascii.eqb a newline then None
      else '(body, rest) ← lazy_dot_until c s'; Some (a :: body, rest)
  end.

(** [\s*\[(.*?)\]]: the tail shared by the three term patterns.
    [\s*] takes all the white space, for [\[] is not white space. *)
Definition bracketed (s : str) : option (str * str) :=
  s ← expect "[" (lstrip s); lazy_dot_until "]" s.

(** [re.match(r'(\S+)\s*\[(.*?)\]', term)], pattern of
    [normalize_data_format]; returns groups 1 and 2.  [\S+] is greedy:
    the longer run is tried before the run that stops at this
    character. *)
Fixpoint match_loose_term (s : str) : option (str * str) :=
  match s with
  | [] => None
  | c :: s' =>
      if isspace c then None
      else match match_loose_term s' with
           | Some (coeff, ops) => Some (c :: coeff, ops)
           | None => '(ops, _) ← bracketed s'; Some ([c], ops)
           end
  end.

(** [[^)]+]: the run of characters up to the next closing parenthesis;
    no shorter run can be followed by [\)]. *)
Fixpoint until_rparen (s : str) : option (str * str) :=
  match s with
  | [] => None
  | a :: s' =>
      if Ascii.eqb a ")" then Some ([], s')
      else '(body, rest) ← until_rparen s'; Some (a :: body, rest)
  end.

(** One match of [r'\(([^)]+)\)\s*\[(.*?)\]'] at the head of [s]:
    the two groups and the text after the match. *)
Definition match_canonical_term (s : str) : option (str * str * str) :=
  s ← expect "(" s;
  '(coeff, s) ← until_rparen s;
  if coeff is [] then None
  else '(ops, rest) ← bracketed s; Some (coeff, ops, rest).

(** [re.findall] of that pattern: scan from the left; after a match
    the scan resumes at its end.  [skip] counts the characters of the
    last match still to be passed over. *)
Fixpoint findall_from (skip : nat) (s : str) : list (str * str) :=
  match s with
  | [] => []
  | _ :: s' =>
      match skip with
      | S k => findall_from k s'
      | O =>
          match match_canonical_term s with
          | Some (coeff, ops, rest) =>
              (coeff, ops) :: findall_from (length s - length rest - 1) s'
          | None => findall_from 0 s'
          end
      end
  end.

Definition findall_canonical_terms (data : str) : list (str * str) :=
  findall_from 0 data.

(** The pattern of [needs_normalization],
    [r'\(\s*-?\d+(\.\d+)?(\+|\-)?\d*?j?\s*\)\s*\[.*?\]'],
    at the head of [s].  Only the existence of a match is used, so
    every optional or repeated item may take all it can: except for
    digits, no later item accepts a character it would take, and
    digits left by [\d+] are taken by the [\d*?] after it. *)
Definition match_detector (s : str) : option (str * str) :=
  s ← expect "(" s;
  s ← digits1 (optional "-" (lstrip s));
  let s := default s (expect "." s ≫= digits1) in
  let s := optional_sign s in
  let s := lstrip (optional "j" (skip_digits s)) in
  s ← expect ")" s;
  bracketed s.

(** [re.search]: a match at some position. *)
Fixpoint search_detector (s : str) : bool :=
  match s with
  | [] => false
  | _ :: s' => bool_decide (is_Some (match_detector s)) || search_detector s'
  end.

(** The class [[XYZ]]. *)
Definition is_pauli_letter (l : ascii) : bool :=
  Ascii.eqb l "X" || Ascii.eqb l "Y" || Ascii.eqb l "Z".

(** [re.match(r'([XYZ])(\d+)', op)] of the term parser: the pattern is
    tried at the start of the token and need not reach its end.
    Returns the letter and the digits of group 2, the longest run. *)
Definition match_operator (op : str) : option (ascii * str) :=
  match op with
  | l :: s =>
      if is_pauli_letter l then
        s' ← digits1 s; Some (l, take (length s - length s') s)
      else None
  | [] => None
  end.

End Regex.

Import Regex.

(** ** Format detector and format normaliser *)

Definition needs_normalization (data : str) : str :=
  if search_detector data then "No" else "Yes".

(** The body of the loop of [normalize_data_format]: the canonical term
    appended for [term], if any. *)
Definition normalize_term (term : str) : option str :=
  let term := strip term in
  if term is [] then None
  else '(coeff, ops) ← match_loose_term term;
       Some ("(" ++ coeff ++ ") [" ++ strip ops ++ "]").

Definition normalize_data_format (data : str) : str :=
  let terms := split "+" data in
  let normalized_data := omap normalize_term terms in
  join (" +" ++ [newline]) normalized_data.

(** Modelled from the spec: [normalize_if_needed] is missing from the
    module; the specification introduces it as the composition of the
    format detector and the format normaliser, which returns the blob
    as it is when the detector reports it canonical and normalises it
    otherwise. *)
Definition normalize_if_needed (blob : str) : str :=
  if decide (needs_normalization blob = "No") then blob
  else normalize_data_format blob.

(** ** Term parser *)

(** The body of the inner loop of [parse_hamiltonian_to_sparsepauliop]:
    [pauli_dict[qubit_index] = pauli_op] when the token matches, on a
    token whose index [int] accepts; [record_operator_checked] below
    has the error of the other tokens. *)
Definition record_operator (pauli_dict : gmap Z ascii) (op : str)
  : gmap Z ascii :=
  match match_operator op with
  | Some (pauli_op, digits) =>
      let qubit_index := int_of_digits digits in
      <[qubit_index := pauli_op]> pauli_dict
  | None => pauli_dict
  end.

Definition parse_operators (ops : str) : gmap Z ascii :=
  let ops_list := split_ws ops in
  foldl record_operator ∅ ops_list.


Definition starts_with_digit (s : str) : bool :=
  match s with
  | c :: _ => isdigit c
  | [] => false
  end.


(** The argument of the term parser: text, or bytes to decode. *)
Inductive pydata :=
| Text (s : str)
| Bytes (b : list Byte.byte).

Section TermParser.
(** The builtin [complex] on text: [None] when it raises [ValueError].
    The coefficients are values of a type [C] that is left open. *)
Context {C : Type} (complex : str -> option C).

(** The limit of the interpreter on the digits of a numeral that [int]
    converts ([sys.get_int_max_str_digits()]: 4300 unless set
    otherwise, 0 for no limit), and [bytes.decode()]: [None] when it
    raises [UnicodeDecodeError]. *)
Context (max_str_digits : nat) (decode : list Byte.byte -> option str).

(** [if isinstance(data, bytes): data = data.decode()]. *)
Definition decode_data (data : pydata) : result str :=
  match data with
  | Text s => Ok s
  | Bytes b =>
      match decode b with
      | Some s => Ok s
      | None => Raise UnicodeDecodeError
      end
  end.

(** [int(digits)] on a run of decimal digits: the digits are counted,
    zeros in front included, and a run longer than the limit is
    refused. *)
Definition int_of_str (digits : str) : result Z :=
  if (0 <? max_str_digits) && (max_str_digits <? length digits)
  then Raise ValueError
  else Ok (int_of_digits digits).

(** The body of the inner loop, with the error of [int]. *)
Definition record_operator_checked (pauli_dict : gmap Z ascii) (op : str)
  : result (gmap Z ascii) :=
  match match_operator op with
  | Some (pauli_op, digits) =>
      let* qubit_index := int_of_str digits in
      Ok (<[qubit_index := pauli_op]> pauli_dict)
  | None => Ok pauli_dict
  end.

(** The inner loop. *)
Fixpoint record_operators_checked (pauli_dict : gmap Z ascii)
  (ops_list : list str) : result (gmap Z ascii) :=
  match ops_list with
  | [] => Ok pauli_dict
  | op :: ops_list' =>
      let* pauli_dict := record_operator_checked pauli_dict op in
      record_operators_checked pauli_dict ops_list'
  end.

(** Token [op] names its index with more digits than [int] accepts;
    an operator list is within the limit when no token of it does. *)
Definition exceeds_limit (op : str) : bool :=
  match match_operator op with
  | Some (_, digits) =>
      (0 <? max_str_digits) && (max_str_digits <? length digits)
  | None => false
  end.

Definition operators_within_limit (ops : str) : bool :=
  forallb (fun op => negb (exceeds_limit op)) (split_ws ops).

(** The body of the outer loop. *)
Definition parse_term (term : str * str) : result (gmap Z ascii * C) :=
  let '(coeff, ops) := term in
  match complex (strip coeff) with
  | None => Raise ValueError
  | Some coeff =>
      let ops_list := split_ws ops in
      let* pauli_dict := record_operators_checked ∅ ops_list in
      Ok (pauli_dict, coeff)
  end.

Fixpoint parse_terms (terms : list (str * str))
  : result (list (gmap Z ascii * C)) :=
  match terms with
  | [] => Ok []
  | term :: terms' =>
      let* parsed := parse_term term in
      let* parsed_pauli_list := parse_terms terms' in
      Ok (parsed :: parsed_pauli_list)
  end.

Definition parse_hamiltonian_to_sparsepauliop (data : pydata)
  : result (list (gmap Z ascii * C)) :=
  let* data := decode_data data in
  let terms := findall_canonical_terms data in
  parse_terms terms.
End TermParser.

(** [bytes.decode()], which decodes UTF-8, onto the text of this
    development (code points below 256): a byte below 128 is its own
    code point, and the lead bytes 0xC2 and 0xC3 followed by a
    continuation byte 0x80..0xBF give the code points 128..255.  [None]
    is [UnicodeDecodeError]: a continuation byte with no lead, the
    overlong leads 0xC0 and 0xC1, a lead with no continuation, the
    bytes from 0xF5 on.  The longer sequences, whose code points lie
    from 256 on, have no text here and get [None] as well; no example
    below holds one. *)
Fixpoint decode_utf8 (b : list Byte.byte) : option str :=
  match b with
  | [] => Some []
  | x :: b' =>
      let n := Byte.to_nat x in
      if n <? 128 then
        match decode_utf8 b' with
        | Some s => Some (ascii_of_nat n :: s)
        | None => None
        end
      else if (194 <=? n) && (n <=? 195) then
        match b' with
        | y :: b'' =>
            let m := Byte.to_nat y in
            if (128 <=? m) && (m <=? 191) then
              match decode_utf8 b'' with
              | Some s => Some (ascii_of_nat (64 * (n - 194) + m) :: s)
              | None => None
              end
            else None
        | [] => None
        end
      else None
  end.

(** ** Qubit count *)

(** [max(l)] on a list of integers; [None] on the empty list. *)
Definition max_of (l : list Z) : option Z :=
  match l with
  | [] => None
  | k :: l' => Some (foldl Z.max k l')
  end.

(** [max(pauli_dict.keys())]; [None] when the dictionary is empty, the
    case the test [if pauli_dict] excludes. *)
Definition max_key {A} (pauli_dict : gmap Z A) : option Z :=
  max_of (map_to_list pauli_dict).*1.

(** The loop of [determine_qubit_count], started at [max_qubit]. *)
Definition max_qubit_from {A C} (max_qubit : Z) (terms : list (gmap Z A * C))
  : Z :=
  foldl (fun max_qubit term =>
           match max_key term.1 with
           | Some max_in_term =>
               if (max_in_term >? max_qubit)%Z then max_in_term
               else max_qubit
           | None => max_qubit
           end) max_qubit terms.

Definition determine_qubit_count {A C} (terms : list (gmap Z A * C)) : Z :=
  let max_qubit := max_qubit_from 0 terms in
  (max_qubit + 1)%Z.

(** Qubit index [k] carries an operator in some term of [terms]. *)
Definition observed {A C} (terms : list (gmap Z A * C)) (k : Z) : Prop :=
  ∃ term, term ∈ terms ∧ is_Some (term.1 !! k).

(** ** Instance-name parser *)

(** The body of the loop of [parse_instance_variables]. *)
Definition parse_instance_part (variables : Dict.t str) (part : str)
  : Dict.t str :=
  if contains "-" part then
    match find "-" part with
    | Some index =>
        let var := take index part in
        let val := drop (index + 1) part in
        Dict.set variables var val
    | None => variables
    end
  else variables.

Definition parse_instance_variables (instance_name : str) : Dict.t str :=
  let parts := split "_" instance_name in
  foldl parse_instance_part [] parts.


(** ** Variable-range aggregator *)

(** [x < y] on text: lexicographic on code points, a proper prefix
    first. *)
Fixpoint str_lt (x y : str) : bool :=
  match x, y with
  | _, [] => false
  | [], _ :: _ => true
  | a :: x', b :: y' =>
      (nat_of_ascii a <? nat_of_ascii b)
      || ((nat_of_ascii a =? nat_of_ascii b) && str_lt x' y')
  end.

(** [sorted(values, key=...)] given the comparison [lt] of two values by
    their keys.  The sort of Python is stable and uses [<] only; so
    does this insertion sort, which puts each value before the first
    one that is not smaller. *)
Fixpoint insort (lt : str -> str -> bool) (x : str) (l : list str)
  : list str :=
  match l with
  | [] => [x]
  | y :: l' => if lt y x then y :: insort lt x l' else x :: l
  end.

Definition sorted (lt : str -> str -> bool) (values : list str) : list str :=
  foldr (insort lt) [] values.

(** A report as printed: one entry per logical dataset, in it one entry
    per variable with the sorted values. *)
Abbreviation report := (Dict.t (Dict.t (list str))).

(** What a call leaves behind: what it printed and the value it
    returned, [None] for the [None] of Python. *)
Record outcome := {
  printed : report;
  returned : option report
}.

Section Aggregator.
(** The builtin [float] on text ([None] when it raises [ValueError])
    with the comparison [<] of its values, and the keys of the HDF5
    file at a path ([None] when the file cannot be opened). *)
Context {F : Type} (float : str -> option F) (float_lt : F -> F -> bool).
Context (h5_keys : str -> option (list str)).

Definition is_numeric (value : str) : bool :=
  match float value with
  | Some _ => true
  | None => false
  end.

(** Comparison of the keys [(is_numeric(x), float(x) if is_numeric(x)
    else x)] of two values: tuples compare on the first component
    where it differs ([False < True]) and on the second otherwise. *)
Definition key_lt (x y : str) : bool :=
  match float x, float y with
  | None, Some _ => true
  | Some _, None => false
  | Some a, Some b => float_lt a b
  | None, None => str_lt x y
  end.

(** [variable_values[var].add(val)], creating the set when [var] is
    new.  A set is a list without duplicates. *)
Definition add_value (variable_values : Dict.t (list str))
  (item : str * str) : Dict.t (list str) :=
  let '(var, val) := item in
  let values := default [] (Dict.get variable_values var) in
  Dict.set variable_values var
    (if decide (val ∈ values) then values else values ++ [val]).

(** The body of the loop over the keys of the file. *)
Definition scan_item (fixed : option (str * str))
  (variable_values : Dict.t (list str)) (item : str)
  : Dict.t (list str) :=
  let instance_name :=
    if contains ":" item then hd [] (split ":" item) else item in
  let variables := parse_instance_variables instance_name in
  let selected :=
    match fixed with
    | None => true
    | Some (fixed_variable, fixed_value) =>
        bool_decide (Dict.get variables fixed_variable = Some fixed_value)
    end in
  if selected then foldl add_value variable_values variables
  else variable_values.

(** The body of the loop over [file_input]. *)
Definition scan_entry (results : Dict.t (Dict.t (list str))) (entry : str)
  : result (Dict.t (Dict.t (list str))) :=
  let parts := split ":" entry in
  match parts with
  | function_name :: file_path :: rest =>
      let* fixed :=
        match rest with
        | [] => Ok None
        | fixed_var_value :: _ =>
            match split "=" fixed_var_value with
            | [fixed_variable; fixed_value] =>
                Ok (Some (fixed_variable, fixed_value))
            | _ => Raise ValueError
            end
        end in
      match h5_keys file_path with
      | None => Raise OSError
      | Some items =>
          let variable_values := foldl (scan_item fixed) [] items in
          Ok (if variable_values is [] then results
              else Dict.set results function_name variable_values)
      end
  | _ => Raise IndexError
  end.

Fixpoint scan_entries (results : Dict.t (Dict.t (list str)))
  (file_input : list str) : result (Dict.t (Dict.t (list str))) :=
  match file_input with
  | [] => Ok results
  | entry :: file_input' =>
      let* results := scan_entry results entry in
      scan_entries results file_input'
  end.

(** The second loop: what is printed for [results]. *)
Definition print_results (results : Dict.t (Dict.t (list str))) : report :=
  map (fun '(function_name, variables) =>
         (function_name,
          map (fun '(var, values) => (var, sorted key_lt values))
            variables))
    results.

(** The function ends after the second loop, without a [return]. *)
Definition extract_variable_ranges (file_input : list str)
  : result outcome :=
  let* results := scan_entries [] file_input in
  Ok {| printed := print_results results; returned := None |}.
End Aggregator.

(** A reading of [float] on decimal integers, enough to run the
    aggregator on names whose values are integers or contain a letter:
    an optional sign and digits, between optional white space. *)
Definition float_of_integer (value : str) : option Z :=
  let value := strip value in
  let '(neg, digits) :=
    match value with
    | c :: value' =>
        if Ascii.eqb c "-" then (true, value')
        else if Ascii.eqb c "+" then (false, value')
        else (false, value)
    | [] => (false, [])
    end in
  match digits with
  | [] => None
  | _ :: _ =>
      if forallb isdigit digits then
        Some (if neg then - int_of_digits digits else int_of_digits digits)%Z
      else None
  end.


(** A file for the worked examples: the record collection of dataset
    "a" in the specification, stored at the path [a.hdf5]; no other
    path can be opened. *)
Definition example_store (file_path : str) : option (list str) :=
  if decide (file_path = "a.hdf5")
  then Some ["a_size-2"; "a_size-4"; "a_graph-ring_size-2"]
  else None.


(** ** Further vocabulary

    Names for pieces of the functions above, used to state how they
    compose. *)

(** The text of one canonical term, as the f-string of
    [normalize_data_format] writes it for a coefficient and an operator
    list. *)
Definition canonical_term (term : str * str) : str :=
  "(" ++ term.1 ++ ") [" ++ term.2 ++ "]".

(** The text of one loose term: coefficient, a space, the bracketed
    operator list. *)
Definition loose_term (term : str * str) : str :=
  term.1 ++ " [" ++ term.2 ++ "]".

(** The delimiter [' +\n'] of [normalize_data_format]. *)
Definition term_separator : str := " +" ++ [newline].

(** Every entry of an operator map has a qubit index that is not
    negative and a letter among X, Y, Z. *)
Definition well_formed_map (pauli_dict : gmap Z ascii) : Prop :=
  ∀ k l, pauli_dict !! k = Some l → (0 ≤ k)%Z ∧ is_pauli_letter l = true.


(** The name [scan_item] parses for a key of the file: the part before
    the first colon. *)
Definition instance_name_of (item : str) : str :=
  if contains ":" item then hd [] (split ":" item) else item.

(** The test of [scan_item] on a key: no constraint, or the variable of
    the constraint has the value of the constraint. *)
Definition selects (fixed : option (str * str)) (item : str) : bool :=
  match fixed with
  | None => true
  | Some (fixed_variable, fixed_value) =>
      bool_decide
        (Dict.get (parse_instance_variables (instance_name_of item))
           fixed_variable = Some fixed_value)
  end.

(** [view_hdf5_structure]: the aggregator on the sample input of the
    module. *)
Definition view_hdf5_structure {F : Type} (float : str -> option F)
  (float_lt : F -> F -> bool) (h5_keys : str -> option (list str))
  : result outcome :=
  let file_input : list str :=
    ["tfim1:downloaded_hamlib_files/tfim.hdf5:graph=1D-grid-pbc-qubitnodes";
     "tfim2:downloaded_hamlib_files/tfim.hdf5";
     "fermi-hubbard:downloaded_hamlib_files/FH_D-1.hdf5:fh=graph-1D-grid-nonpbc-qubitnodes";
     "MVS-H2O:downloaded_hamlib_files/all-vib-h2o.hdf5"] in
  extract_variable_ranges float float_lt h5_keys file_input.

(** A loose term the normaliser reads as one term: a coefficient that
    is not empty and holds neither white space nor [+], and an operator
    list on one line without [+] and without a closing bracket. *)
Definition well_formed_loose (term : str * str) : Prop :=
  term.1 ≠ []
  ∧ Forall (fun c => isspace c = false) term.1
  ∧ ("+"%char ∉ term.1)
  ∧ Forall (fun a => a ≠ "]"%char ∧ a ≠ newline) term.2
  ∧ ("+"%char ∉ term.2).

(** A canonical term the term parser reads back: a coefficient that is
    not empty and holds no closing parenthesis, and an operator list on
    one line without a closing bracket. *)
Definition well_formed_canonical (term : str * str) : Prop :=
  term.1 ≠ []
  ∧ (")"%char ∉ term.1)
  ∧ Forall (fun a => a ≠ "]"%char ∧ a ≠ newline) term.2.

(** Value [val] is recorded for variable [var] in the per-dataset
    dictionary [variable_values]. *)
Definition reported (variable_values : Dict.t (list str)) (var val : str)
  : Prop :=
  ∃ values, Dict.get variable_values var = Some values ∧ val ∈ values.

(** A second file for the worked examples, at the path [b.hdf5]: its
    keys carry no variable. *)
Definition example_plain_store (file_path : str) : option (list str) :=
  if decide (file_path = "b.hdf5") then Some ["ham1"; "ham2"]
  else example_store file_path.

(** The ways an entry of the input makes the aggregator fail with
    exception [e]: fewer than two parts between colons; a third part
    that does not split at [=] into exactly two; a file that cannot be
    opened. *)
Definition entry_fails (h5_keys : str -> option (list str)) (entry : str)
  (e : exn) : Prop :=
  (e = IndexError ∧ length (split ":" entry) < 2)
  ∨ (e = ValueError
     ∧ ∃ fixed, split ":" entry !! 2 = Some fixed
                ∧ length (split "=" fixed) ≠ 2)
  ∨ (e = OSError
     ∧ ∃ file_path, split ":" entry !! 1 = Some file_path
                    ∧ h5_keys file_path = None).
(** * Properties *)

(** ** The worked examples of the specification *)

Example needs_normalization_canonical :
  needs_normalization "(1.0) [X0 Y1]" = "No".
Proof. reflexivity. Qed.

Example needs_normalization_loose :
  needs_normalization "1.0 [X0 Y1] + 2.0 [Z2]" = "Yes".
Proof. reflexivity. Qed.

Example normalize_data_format_ex :
  normalize_data_format "1.0 [X0 Y1] + 2.0 [Z2]"
  = "(1.0) [X0 Y1] +" ++ [newline] ++ "(2.0) [Z2]".
Proof. reflexivity. Qed.

Example findall_canonical_terms_ex :
  findall_canonical_terms ("(1.5+0.5j) [X0 Z2] +" ++ [newline] ++ "(2.0) [Y1]")
  = [("1.5+0.5j", "X0 Z2"); ("2.0", "Y1")].
Proof. reflexivity. Qed.

Example parse_operators_ex :
  parse_operators "X0 Z2" = {[0%Z := "X"%char; 2%Z := "Z"%char]}.
Proof. by vm_compute. Qed.

Example parse_instance_variables_ex :
  parse_instance_variables "graph-1D-grid-pbc_size-4"
  = [("graph", "1D-grid-pbc"); ("size", "4")].
Proof. reflexivity. Qed.

(** ** Qubit count *)

Section QubitCount.
Context {A C : Type}.
Implicit Types (terms : list (gmap Z A * C)) (d : gmap Z A).

Lemma foldl_max_ge (l : list Z) (k : Z) :
  (k ≤ foldl Z.max k l)%Z ∧ ∀ j, j ∈ l → (j ≤ foldl Z.max k l)%Z.
Proof.
  revert k; induction l as [|a l IH]; intros k; simpl.
  - split; [lia|]. intros j Hj. inversion Hj.
  - destruct (IH (Z.max k a)) as [H1 H2]. split; [lia|].
    intros j [->|Hj]%elem_of_cons; [lia|auto].
Qed.

Lemma foldl_max_in (l : list Z) (k : Z) :
  foldl Z.max k l = k ∨ foldl Z.max k l ∈ l.
Proof.
  revert k; induction l as [|a l IH]; intros k; simpl; [by left|].
  destruct (IH (Z.max k a)) as [H|H].
  - rewrite H. destruct (Z.max_spec k a) as [[_ ->]|[_ ->]].
    + right. left.
    + by left.
  - right. by right.
Qed.

Lemma max_of_Some (l : list Z) (m : Z) :
  max_of l = Some m → m ∈ l ∧ ∀ j, j ∈ l → (j ≤ m)%Z.
Proof.
  destruct l as [|k l]; simpl; [done|]. intros [= <-]. split.
  - destruct (foldl_max_in l k) as [->|H]; [left|by right].
  - destruct (foldl_max_ge l k) as [H1 H2].
    intros j [->|Hj]%elem_of_cons; auto.
Qed.

Lemma max_key_Some d (m : Z) :
  max_key d = Some m →
  is_Some (d !! m) ∧ ∀ k, is_Some (d !! k) → (k ≤ m)%Z.
Proof.
  unfold max_key. intros [Hin Hmax]%max_of_Some. split.
  - apply list_elem_of_fmap in Hin as [[k v] [-> Hkv]].
    apply elem_of_map_to_list in Hkv. by exists v.
  - intros k [v Hv]. apply Hmax, list_elem_of_fmap.
    exists (k, v). split; [done|]. by apply elem_of_map_to_list.
Qed.

Lemma max_key_None d : max_key d = None → d = ∅.
Proof.
  unfold max_key. destruct (map_to_list d) as [|kv l] eqn:E; [|done].
  intros _. by apply map_to_list_empty_iff.
Qed.

(** The loop returns an upper bound of its start value and of every
    observed index, and that bound is the start value or observed. *)
Lemma max_qubit_from_spec terms (m0 : Z) :
  let m := max_qubit_from m0 terms in
  (m0 ≤ m)%Z
  ∧ (∀ k, observed terms k → (k ≤ m)%Z)
  ∧ (m = m0 ∨ observed terms m).
Proof.
  revert m0; induction terms as [|[d c] terms IH]; intros m0;
    unfold max_qubit_from; simpl.
  - split; [lia|]. split; [|by left].
    intros k (t & Ht & _). inversion Ht.
  - set (m1 := match max_key d with
               | Some max_in_term =>
                   if (max_in_term >? m0)%Z then max_in_term else m0
               | None => m0
               end).
    destruct (IH m1) as (Hge & Hub & Hin).
    assert (Hm1 : (m0 ≤ m1)%Z ∧ (∀ k, is_Some (d !! k) → (k ≤ m1)%Z)
                  ∧ (m1 = m0 ∨ is_Some (d !! m1))).
    { subst m1. destruct (max_key d) as [mt|] eqn:E.
      - apply max_key_Some in E as [E1 E2].
        destruct (Z.gtb_spec mt m0).
        + split; [lia|]. split; [auto|by right].
        + split; [lia|]. split; [|by left].
          intros k Hk. specialize (E2 k Hk). lia.
      - apply max_key_None in E as ->. split; [lia|].
        split; [|by left]. intros k [v Hv]. by rewrite lookup_empty in Hv. }
    destruct Hm1 as (H1 & H2 & H3).
    fold (max_qubit_from m1 terms) in *.
    split; [lia|]. split.
    + intros k (t & [->|Ht]%elem_of_cons & Hk).
      * specialize (H2 k Hk). lia.
      * apply Hub. by exists t.
    + destruct Hin as [Hin|(t & Ht & Hk)].
      * rewrite Hin. destruct H3 as [->|H3]; [by left|].
        right. exists (d, c). split; [left|done].
      * right. exists t. split; [by right|done].
Qed.
End QubitCount.

(** C1 (as stated, refuted): the claim gives the count 0 to a list in
    which no term has a recorded operator.  The all-identity list with
    one term, like the empty list, has the count 1. *)
Lemma determine_qubit_count_identity_is_one :
  (∀ k, ¬ observed [((∅ : gmap Z ascii), 2%Z)] k)
  ∧ determine_qubit_count [((∅ : gmap Z ascii), 2%Z)] = 1%Z
  ∧ determine_qubit_count ([] : list (gmap Z ascii * Z)) = 1%Z
  ∧ 1%Z ≠ 0%Z.
Proof.
  split; [|by vm_compute].
  intros k (t & Ht & [v Hv]). apply list_elem_of_singleton in Ht as ->.
  simpl in Hv. by rewrite lookup_empty in Hv.
Qed.

(** C1 (amended): for a sparse operator list whose qubit indices are not
    negative, [determine_qubit_count] returns 1 plus the largest qubit
    index observed across the operator maps of all terms, and returns 1
    when no term has any recorded operator. *)
Theorem determine_qubit_count_spec {A C} (terms : list (gmap Z A * C)) :
  (∀ k, observed terms k → (0 ≤ k)%Z) →
  (∀ m, observed terms m → (∀ k, observed terms k → (k ≤ m)%Z) →
        determine_qubit_count terms = (m + 1)%Z)
  ∧ ((∀ k, ¬ observed terms k) → determine_qubit_count terms = 1%Z).
Proof.
  intros Hnonneg. unfold determine_qubit_count.
  destruct (max_qubit_from_spec terms 0) as (Hge & Hub & Hin).
  simpl in *. split.
  - intros m Hm Hmax. f_equal.
    destruct Hin as [Hin|Hin].
    + specialize (Hub m Hm). specialize (Hnonneg m Hm). lia.
    + specialize (Hub m Hm). specialize (Hmax _ Hin). lia.
  - intros Hnone. destruct Hin as [->|Hin]; [done|].
    by apply Hnone in Hin.
Qed.

Lemma determine_qubit_count_spec_witness :
  determine_qubit_count
    [(({[0%Z := "X"%char; 2%Z := "Z"%char]} : gmap Z ascii), 3%Z);
     ((∅ : gmap Z ascii), 1%Z);
     (({[1%Z := "Y"%char]} : gmap Z ascii), 2%Z)] = 3%Z.
Proof.
  set (terms := [(({[0%Z := "X"%char; 2%Z := "Z"%char]} : gmap Z ascii), 3%Z);
                 ((∅ : gmap Z ascii), 1%Z);
                 (({[1%Z := "Y"%char]} : gmap Z ascii), 2%Z)]).
  assert (Hobs : ∀ k, observed terms k → k = 0%Z ∨ k = 1%Z ∨ k = 2%Z).
  { intros k (t & Ht & [v Hv]). subst terms.
    repeat (apply elem_of_cons in Ht as [->|Ht]); simpl in Hv.
    - destruct (decide (k = 0%Z)); [auto|].
      destruct (decide (k = 2%Z)); [auto|].
      rewrite lookup_insert_ne, lookup_singleton_ne in Hv by done.
      done.
    - by rewrite lookup_empty in Hv.
    - destruct (decide (k = 1%Z)); [auto|].
      by rewrite lookup_singleton_ne in Hv.
    - inversion Ht. }
  refine (proj1 (determine_qubit_count_spec terms _) 2%Z _ _).
  - intros k Hk. destruct (Hobs k Hk) as [->|[->| ->]]; lia.
  - eexists. split; [left|]. simpl. by eexists.
  - intros k Hk. destruct (Hobs k Hk) as [->|[->| ->]]; lia.
Defined.

(** ** Term parser: operator tokens *)

Lemma skip_digits_app (ds rest : str) :
  forallb isdigit ds = true → starts_with_digit rest = false →
  skip_digits (ds ++ rest) = rest.
Proof.
  intros Hds Hrest. induction ds as [|d ds IH]; simpl in *.
  - destruct rest as [|c rest]; simpl in *; [done|]. by rewrite Hrest.
  - apply andb_true_iff in Hds as [-> Hds]. auto.
Qed.

Lemma skip_digits_split (s : str) :
  ∃ ds, s = ds ++ skip_digits s ∧ forallb isdigit ds = true
        ∧ starts_with_digit (skip_digits s) = false.
Proof.
  induction s as [|c s (ds & IH1 & IH2 & IH3)]; simpl.
  - by exists [].
  - destruct (isdigit c) eqn:E.
    + exists (c :: ds). simpl. rewrite E, IH2. split; [by f_equal|done].
    + exists []. simpl. by rewrite E.
Qed.

Lemma match_operator_prefix (l : ascii) (ds rest : str) :
  is_pauli_letter l = true → ds ≠ [] → forallb isdigit ds = true →
  starts_with_digit rest = false →
  match_operator (l :: ds ++ rest) = Some (l, ds).
Proof.
  intros Hl Hne Hds Hrest. unfold match_operator. rewrite Hl.
  destruct ds as [|d ds]; [done|]. simpl in *.
  apply andb_true_iff in Hds as [Hd Hds]. rewrite Hd. simpl.
  rewrite skip_digits_app by done. do 2 f_equal.
  rewrite length_app.
  replace (S (length ds + length rest) - length rest) with (S (length ds))
    by lia.
  simpl. f_equal. by rewrite take_app_length.
Qed.






(** ** Term parser: repeated qubit indices *)




(** ** Term parser: malformed coefficients *)

Section Coefficients.
Context {C : Type} (complex : str → option C).
Context (max_str_digits : nat) (decode : list Byte.byte → option str).

(** The checked loop body is the loop body, unless [int] refuses the
    index. *)
Lemma record_operator_checked_cases (pauli_dict : gmap Z ascii) (op : str) :
  record_operator_checked max_str_digits pauli_dict op
  = if exceeds_limit max_str_digits op then Raise ValueError
    else Ok (record_operator pauli_dict op).
Proof.
  unfold record_operator_checked, exceeds_limit, record_operator, int_of_str.
  destruct (match_operator op) as [[l ds]|]; [|done].
  by destruct ((0 <? max_str_digits) && (max_str_digits <? length ds)).
Qed.

Lemma record_operators_checked_cases (pauli_dict : gmap Z ascii)
  (ops_list : list str) :
  record_operators_checked max_str_digits pauli_dict ops_list
  = if forallb (fun op => negb (exceeds_limit max_str_digits op)) ops_list
    then Ok (foldl record_operator pauli_dict ops_list)
    else Raise ValueError.
Proof.
  revert pauli_dict.
  induction ops_list as [|op ops_list IH]; intros pauli_dict; simpl; [done|].
  rewrite record_operator_checked_cases.
  destruct (exceeds_limit max_str_digits op); simpl; [done|]. apply IH.
Qed.

Lemma parse_term_cases (term : str * str) :
  parse_term complex max_str_digits term
  = match complex (strip term.1) with
    | None => Raise ValueError
    | Some coeff =>
        if operators_within_limit max_str_digits term.2
        then Ok (parse_operators term.2, coeff)
        else Raise ValueError
    end.
Proof.
  destruct term as [coeff ops]. unfold parse_term. cbn [fst snd].
  destruct (complex (strip coeff)); [|done].
  rewrite record_operators_checked_cases.
  unfold operators_within_limit, parse_operators.
  by destruct (forallb _ _).
Qed.

Lemma parse_term_Raise (term : str * str) (e : exn) :
  parse_term complex max_str_digits term = Raise e ↔
  e = ValueError
  ∧ (complex (strip term.1) = None
     ∨ operators_within_limit max_str_digits term.2 = false).
Proof.
  rewrite parse_term_cases.
  destruct (complex (strip term.1));
    [destruct (operators_within_limit max_str_digits term.2)|];
    split; try done.
  - by intros [_ [?|?]].
  - intros [= <-]. auto.
  - intros [-> _]. done.
  - intros [= <-]. auto.
  - intros [-> _]. done.
Qed.

Lemma parse_term_Ok (term : str * str) (parsed : gmap Z ascii * C) :
  parse_term complex max_str_digits term = Ok parsed ↔
  complex (strip term.1) = Some parsed.2
  ∧ operators_within_limit max_str_digits term.2 = true
  ∧ parsed.1 = parse_operators term.2.
Proof.
  rewrite parse_term_cases. destruct parsed as [d c]. cbn [fst snd].
  destruct (complex (strip term.1));
    [destruct (operators_within_limit max_str_digits term.2)|];
    split; try done.
  - by intros [= <- <-].
  - by intros ([= <-] & _ & ->).
  - by intros (_ & ? & _).
  - by intros (? & _).
Qed.

Lemma parse_terms_Raise_inv (terms : list (str * str)) (e : exn) :
  parse_terms complex max_str_digits terms = Raise e →
  e = ValueError
  ∧ ∃ term, term ∈ terms
            ∧ (complex (strip term.1) = None
               ∨ operators_within_limit max_str_digits term.2 = false).
Proof.
  induction terms as [|term terms IH]; simpl; [done|].
  destruct (parse_term complex max_str_digits term) as [parsed|e'] eqn:E;
    simpl.
  - destruct (parse_terms complex max_str_digits terms) as [l|e''] eqn:E';
      simpl; [done|].
    intros [= ->]. destruct (IH eq_refl) as (-> & t & Ht & Hn).
    split; [done|]. exists t. split; [by right|done].
  - intros [= ->]. apply parse_term_Raise in E as [-> E].
    split; [done|]. exists term. split; [left|done].
Qed.

Lemma parse_terms_Raise_intro (terms : list (str * str)) (term : str * str) :
  term ∈ terms →
  complex (strip term.1) = None
  ∨ operators_within_limit max_str_digits term.2 = false →
  parse_terms complex max_str_digits terms = Raise ValueError.
Proof.
  intros Hin Hbad.
  induction terms as [|term' terms IH]; simpl; [inversion Hin|].
  destruct (parse_term complex max_str_digits term') as [parsed|e'] eqn:E;
    simpl.
  - apply elem_of_cons in Hin as [->|Hin].
    + apply parse_term_Ok in E as (E1 & E2 & _).
      destruct Hbad; congruence.
    + by rewrite IH.
  - by apply parse_term_Raise in E as [-> _].
Qed.

Lemma parse_terms_Ok (terms : list (str * str))
  (parsed_pauli_list : list (gmap Z ascii * C)) :
  parse_terms complex max_str_digits terms = Ok parsed_pauli_list →
  Forall2 (fun term parsed =>
             complex (strip term.1) = Some parsed.2
             ∧ parsed.1 = parse_operators term.2)
    terms parsed_pauli_list.
Proof.
  revert parsed_pauli_list.
  induction terms as [|term terms IH]; intros l; simpl.
  - intros [= <-]. constructor.
  - destruct (parse_term complex max_str_digits term) as [parsed|e'] eqn:E;
      simpl; [|done].
    destruct (parse_terms complex max_str_digits terms) as [l'|e''] eqn:E';
      simpl; [|done].
    intros [= <-]. apply parse_term_Ok in E as (E1 & _ & E3).
    constructor; [done|by apply IH].
Qed.

Lemma parse_Raise (data : pydata) (e : exn) :
  parse_hamiltonian_to_sparsepauliop complex max_str_digits decode data
  = Raise e ↔
  (e = UnicodeDecodeError ∧ decode_data decode data = Raise UnicodeDecodeError)
  ∨ (e = ValueError
     ∧ ∃ text term,
         decode_data decode data = Ok text
         ∧ term ∈ findall_canonical_terms text
         ∧ (complex (strip term.1) = None
            ∨ operators_within_limit max_str_digits term.2 = false)).
Proof.
  unfold parse_hamiltonian_to_sparsepauliop.
  assert (Hdec : ∀ e', decode_data decode data = Raise e' →
                       e' = UnicodeDecodeError).
  { intros e'. destruct data as [s|b]; simpl; [done|].
    destruct (decode b); [done|]. by intros [= <-]. }
  destruct (decode_data decode data) as [text|e'] eqn:E; simpl.
  - split.
    + intros [-> (term & Hin & Hbad)]%parse_terms_Raise_inv.
      right. split; [done|]. by exists text, term.
    + intros [[_ [=]]|(-> & text' & term & [= <-] & Hin & Hbad)].
      by eapply parse_terms_Raise_intro.
  - rewrite (Hdec e' eq_refl). split.
    + intros [= <-]. by left.
    + intros [[-> _]|(_ & text & term & [=] & _)]. done.
Qed.
End Coefficients.

(** C6 (as stated, refuted): a term whose coefficient parses can still
    make the parser raise.  The operator token [X0...07] with 4301
    digits is refused by [int] under the default limit of 4300 digits,
    and the call raises [ValueError] although the only matched
    coefficient, 1, is well formed; undecodable bytes raise before any
    term is matched. *)
Lemma parse_raises_without_malformed_coefficient :
  parse_hamiltonian_to_sparsepauliop float_of_integer 4300 decode_utf8
    (Text ("(1) [X" ++ replicate 4300 "0"%char ++ "7]"))
  = Raise ValueError
  ∧ (∀ term,
        term ∈ findall_canonical_terms
                 ("(1) [X" ++ replicate 4300 "0"%char ++ "7]") →
        float_of_integer (strip term.1) = Some 1%Z)
  ∧ parse_hamiltonian_to_sparsepauliop float_of_integer 4300 decode_utf8
      (Bytes [Byte.xff])
    = Raise UnicodeDecodeError.
Proof.
  split; [by vm_compute|]. split; [|by vm_compute].
  intros term Hin.
  assert (findall_canonical_terms
            ("(1) [X" ++ replicate 4300 "0"%char ++ "7]")
          = [("1" : str, "X" ++ replicate 4300 "0"%char ++ "7")]) as Hfind
    by (by vm_compute).
  rewrite Hfind in Hin. by apply list_elem_of_singleton in Hin as ->.
Qed.

(** C6 (amended): [parse_hamiltonian_to_sparsepauliop] raises an error
    if and only if its bytes argument cannot be decoded
    ([UnicodeDecodeError]), or some matched term's coefficient fails to
    parse as a complex number, or some operator token of a matched term
    names its index with more digits than [int] accepts (both
    [ValueError]).  The error is passed on to the caller and no
    coefficient is replaced by another value: when the call returns,
    the coefficient of every term is the value [complex] gave for the
    matched text, in match order. *)
Theorem parse_raises_iff {C : Type} (complex : str → option C)
  (max_str_digits : nat) (decode : list Byte.byte → option str)
  (data : pydata) :
  ((∃ e, parse_hamiltonian_to_sparsepauliop complex max_str_digits decode
           data = Raise e) ↔
   decode_data decode data = Raise UnicodeDecodeError
   ∨ ∃ text term,
       decode_data decode data = Ok text
       ∧ term ∈ findall_canonical_terms text
       ∧ (complex (strip term.1) = None
          ∨ operators_within_limit max_str_digits term.2 = false))
  ∧ (∀ e, parse_hamiltonian_to_sparsepauliop complex max_str_digits decode
            data = Raise e →
          (e = UnicodeDecodeError
           ∧ decode_data decode data = Raise UnicodeDecodeError)
          ∨ (e = ValueError ∧ ∃ text, decode_data decode data = Ok text))
  ∧ (∀ parsed_pauli_list,
        parse_hamiltonian_to_sparsepauliop complex max_str_digits decode data
        = Ok parsed_pauli_list →
        ∃ text,
          decode_data decode data = Ok text
          ∧ Forall2 (fun term parsed =>
                       complex (strip term.1) = Some parsed.2
                       ∧ parsed.1 = parse_operators term.2)
              (findall_canonical_terms text) parsed_pauli_list).
Proof.
  split; [split|split].
  - intros [e [[_ H]|(_ & text & term & H)]%parse_Raise]; [by left|].
    right. by exists text, term.
  - intros [H|(text & term & H)].
    + exists UnicodeDecodeError. apply parse_Raise. by left.
    + exists ValueError. apply parse_Raise. right. split; [done|].
      by exists text, term.
  - intros e [H|(-> & text & term & H & _)]%parse_Raise; [by left|].
    right. split; [done|]. by exists text.
  - intros l. unfold parse_hamiltonian_to_sparsepauliop.
    destruct (decode_data decode data) as [text|e]; simpl; [|done].
    intros H%parse_terms_Ok. by exists text.
Qed.

Lemma parse_raises_iff_witness :
  (∃ e, parse_hamiltonian_to_sparsepauliop float_of_integer 4300 decode_utf8
          (Text "(2) [X0 Y1] + (1,5) [Z2]") = Raise e)
  ∧ (∃ text,
        decode_data decode_utf8 (Bytes [Byte.x28; Byte.x32; Byte.x29;
                                        Byte.x5b; Byte.x5a; Byte.x31;
                                        Byte.x5d]) = Ok text
        ∧ Forall2 (fun term parsed =>
                     float_of_integer (strip term.1) = Some parsed.2
                     ∧ parsed.1 = parse_operators term.2)
            (findall_canonical_terms text) [({[1%Z := "Z"%char]}, 2%Z)]).
Proof.
  split.
  - apply (proj1 (parse_raises_iff float_of_integer 4300 decode_utf8
                    (Text "(2) [X0 Y1] + (1,5) [Z2]"))).
    right. exists (list_ascii_of_string "(2) [X0 Y1] + (1,5) [Z2]"),
      ("1,5" : str, "Z2" : str).
    split; [reflexivity|]. split; [|by left].
    apply (bool_decide_unpack _). by vm_compute.
  - apply (proj2 (proj2 (parse_raises_iff float_of_integer 4300 decode_utf8
                           (Bytes [Byte.x28; Byte.x32; Byte.x29; Byte.x5b;
                                   Byte.x5a; Byte.x31; Byte.x5d])))).
    by vm_compute.
Defined.

(** ** Text: membership, [find] and [split] *)

Lemma contains_true (c : ascii) (s : str) : contains c s = true ↔ c ∈ s.
Proof.
  unfold contains. rewrite existsb_exists. split.
  - intros (a & Hin & ->%Ascii.eqb_eq). by apply list_elem_of_In.
  - intros Hin. exists c. split; [by apply list_elem_of_In|].
    apply Ascii.eqb_refl.
Qed.

Lemma contains_false (c : ascii) (s : str) : contains c s = false ↔ c ∉ s.
Proof.
  rewrite <- contains_true. by destruct (contains c s).
Qed.

Lemma find_app (c : ascii) (s t : str) :
  c ∉ s → find c (s ++ c :: t) = Some (length s).
Proof.
  induction s as [|a s IH]; simpl; intros Hnotin.
  - by rewrite Ascii.eqb_refl.
  - apply not_elem_of_cons in Hnotin as [Hne Hnotin].
    destruct (Ascii.eqb_spec a c) as [->|_]; [done|].
    by rewrite IH.
Qed.

Lemma split_notin (c : ascii) (s : str) : c ∉ s → split c s = [s].
Proof.
  induction s as [|a s IH]; simpl; [done|].
  intros [Hne Hnotin]%not_elem_of_cons.
  destruct (Ascii.eqb_spec a c) as [->|_]; [done|].
  by rewrite IH.
Qed.

Lemma split_app (c : ascii) (s t : str) :
  c ∉ s → split c (s ++ c :: t) = s :: split c t.
Proof.
  induction s as [|a s IH]; simpl; intros Hnotin.
  - by rewrite Ascii.eqb_refl.
  - apply not_elem_of_cons in Hnotin as [Hne Hnotin].
    destruct (Ascii.eqb_spec a c) as [->|_]; [done|].
    by rewrite IH.
Qed.

(** Splitting undoes joining on a separator that no piece contains. *)
Lemma split_join (c : ascii) (pieces : list str) :
  pieces ≠ [] → Forall (fun piece => c ∉ piece) pieces →
  split c (join [c] pieces) = pieces.
Proof.
  induction pieces as [|w [|w' ws] IH]; intros Hne Hall; [done|..].
  - simpl. apply split_notin. by inversion Hall.
  - inversion Hall as [|? ? Hw Hall']; subst.
    change (join [c] (w :: w' :: ws)) with (w ++ c :: join [c] (w' :: ws)).
    rewrite split_app by done. f_equal. by apply IH.
Qed.

(** ** Instance-name parser *)

Lemma parse_instance_part_hyphen (variables : Dict.t str) (var val : str) :
  "-"%char ∉ var →
  parse_instance_part variables (var ++ "-"%char :: val)
  = Dict.set variables var val.
Proof.
  intros Hvar. unfold parse_instance_part.
  assert (contains "-" (var ++ "-"%char :: val) = true) as ->.
  { apply contains_true, elem_of_app. right. left. }
  rewrite find_app by done. f_equal.
  - by rewrite take_app_length.
  - replace (length var + 1) with (S (length var)) by lia.
    change (var ++ "-"%char :: val) with (var ++ ["-"%char] ++ val).
    rewrite app_assoc.
    replace (S (length var)) with (length (var ++ ["-"%char]))
      by (rewrite length_app; simpl; lia).
    by rewrite drop_app_length.
Qed.

Lemma parse_instance_part_plain (variables : Dict.t str) (part : str) :
  "-"%char ∉ part → parse_instance_part variables part = variables.
Proof.
  intros H%contains_false. unfold parse_instance_part. by rewrite H.
Qed.

(** C3 (as stated, refuted): the value recorded for [graph] is the whole
    remainder [1D-grid-pbc] of the segment, not its part [1D] before the
    next hyphen. *)
Lemma parse_instance_variables_keeps_remainder :
  Dict.get (parse_instance_variables "graph-1D-grid-pbc_size-4") "graph"
  = Some (list_ascii_of_string "1D-grid-pbc")
  ∧ parse_instance_variables "graph-1D-grid-pbc_size-4"
    ≠ [("graph", "1D"); ("size", "4")].
Proof. split; by vm_compute. Qed.

(** C3 (amended): [parse_instance_variables] applied to
    "graph-1D-grid-pbc_size-4" returns
    {"graph": "1D-grid-pbc", "size": "4"}: the name is cut at every
    underscore, each segment containing a hyphen is split at its first
    hyphen into (variable-name, value), the value being the whole
    remainder of the segment after that hyphen, and a segment without a
    hyphen records nothing. *)
Theorem parse_instance_variables_first_hyphen (segments : list str) :
  segments ≠ [] → Forall (fun segment => "_"%char ∉ segment) segments →
  parse_instance_variables "graph-1D-grid-pbc_size-4"
  = [("graph", "1D-grid-pbc"); ("size", "4")]
  ∧ parse_instance_variables (join "_" segments)
    = foldl parse_instance_part [] segments
  ∧ (∀ variables var val,
        "-"%char ∉ var →
        parse_instance_part variables (var ++ "-"%char :: val)
        = Dict.set variables var val)
  ∧ (∀ variables part,
        "-"%char ∉ part → parse_instance_part variables part = variables).
Proof.
  intros Hne Hall. split; [reflexivity|]. split; [|split].
  - unfold parse_instance_variables.
    change (list_ascii_of_string "_") with ["_"%char].
    by rewrite split_join.
  - apply parse_instance_part_hyphen.
  - apply parse_instance_part_plain.
Qed.

Lemma parse_instance_variables_first_hyphen_witness :
  parse_instance_variables (join "_" ["tfim"; "h-0.5-b"; "n-12"; "h-2"])
  = foldl parse_instance_part [] ["tfim"; "h-0.5-b"; "n-12"; "h-2"]
  ∧ parse_instance_part [("n", "12")] ("h" ++ "-"%char :: "0.5-b")
    = [("n", "12"); ("h", "0.5-b")].
Proof.
  assert (Hall : Forall (fun segment : str => "_"%char ∉ segment)
                   ["tfim"; "h-0.5-b"; "n-12"; "h-2"]).
  { repeat constructor; by apply contains_false. }
  assert (Hne : (["tfim"; "h-0.5-b"; "n-12"; "h-2"] : list str) ≠ []) by done.
  destruct (parse_instance_variables_first_hyphen _ Hne Hall)
    as (_ & Hjoin & Hhyphen & _).
  split; [exact Hjoin|].
  refine (Hhyphen [("n", "12")] "h" "0.5-b" _). by apply contains_false.
Defined.

(** ** Text: stripping *)

Lemma lstrip_nonspace (c : ascii) (s : str) :
  isspace c = false → lstrip (c :: s) = c :: s.
Proof. intros H. simpl. by rewrite H. Qed.

Lemma lstrip_suffix (s : str) : ∃ ws, s = ws ++ lstrip s.
Proof.
  induction s as [|c s [ws IH]]; simpl; [by exists []|].
  destruct (isspace c).
  - exists (c :: ws). simpl. by f_equal.
  - by exists [].
Qed.

Lemma elem_of_lstrip (c : ascii) (s : str) : c ∈ lstrip s → c ∈ s.
Proof.
  destruct (lstrip_suffix s) as [ws Hs]. intros Hin.
  rewrite Hs. apply elem_of_app. by right.
Qed.

Lemma elem_of_rev (c : ascii) (s : str) : c ∈ rev s ↔ c ∈ s.
Proof. rewrite !list_elem_of_In. symmetry. apply in_rev. Qed.

Lemma elem_of_strip (c : ascii) (s : str) : c ∈ strip s → c ∈ s.
Proof.
  unfold strip, rstrip. rewrite elem_of_rev. intros H%elem_of_lstrip.
  apply elem_of_lstrip. by apply elem_of_rev.
Qed.

Lemma rstrip_nonspace (s : str) (c : ascii) :
  isspace c = false → rstrip (s ++ [c]) = s ++ [c].
Proof.
  intros H. unfold rstrip. rewrite rev_app_distr. simpl.
  rewrite H. change (c :: rev s) with ([c] ++ rev s).
  rewrite rev_app_distr. simpl. by rewrite rev_involutive.
Qed.

(** A text that neither starts nor ends with white space is its own
    [strip]. *)
Lemma strip_id (a c : ascii) (s : str) :
  isspace a = false → isspace c = false →
  strip (a :: s ++ [c]) = a :: s ++ [c].
Proof.
  intros Ha Hc. unfold strip. rewrite lstrip_nonspace by done.
  change (a :: s ++ [c]) with ((a :: s) ++ [c]). by apply rstrip_nonspace.
Qed.

(** ** Format normaliser: the patterns *)

Lemma lazy_dot_until_app (c : ascii) (body rest : str) :
  Forall (fun a => a ≠ c ∧ a ≠ newline) body →
  lazy_dot_until c (body ++ c :: rest) = Some (body, rest).
Proof.
  induction body as [|a body IH]; simpl; intros Hall.
  - by rewrite Ascii.eqb_refl.
  - inversion Hall as [|? ? [Hc Hnl] Hall']; subst.
    destruct (Ascii.eqb_spec a c) as [|_]; [done|].
    destruct (Ascii.eqb_spec a newline) as [|_]; [done|].
    by rewrite IH.
Qed.

Lemma expect_Some (c : ascii) (s s' : str) :
  expect c s = Some s' ↔ s = c :: s'.
Proof.
  destruct s as [|a s]; simpl; [done|].
  destruct (Ascii.eqb_spec a c) as [->|Hne]; split; congruence.
Qed.

Lemma bracketed_elem (s : str) :
  is_Some (bracketed s) → "["%char ∈ s.
Proof.
  unfold bracketed. intros [r Hr].
  destruct (expect "[" (lstrip s)) as [s'|] eqn:E; [|done].
  apply expect_Some in E. apply elem_of_lstrip. rewrite E. left.
Qed.

(** The loose pattern needs an opening bracket. *)
Lemma match_loose_term_elem (s : str) :
  is_Some (match_loose_term s) → "["%char ∈ s.
Proof.
  induction s as [|c s IH]; simpl; [by intros [? ?]|].
  destruct (isspace c); [by intros [? ?]|].
  destruct (match_loose_term s) as [[coeff ops]|].
  - intros _. right. apply IH. eauto.
  - intros [r Hr]. right. apply bracketed_elem.
    destruct (bracketed s) as [[ops rest]|]; [eauto|done].
Qed.

Lemma match_loose_term_cons (c : ascii) (s : str) :
  match_loose_term (c :: s)
  = if isspace c then None
    else match match_loose_term s with
         | Some (coeff, ops) => Some (c :: coeff, ops)
         | None => '(ops, _) ← bracketed s; Some ([c], ops)
         end.
Proof. reflexivity. Qed.

(** On a coefficient without white space, followed by one space and a
    bracketed operator list on one line, the loose pattern captures the
    whole coefficient and the content of the brackets. *)
Lemma match_loose_term_app (coeff ops rest : str) :
  coeff ≠ [] → Forall (fun c => isspace c = false) coeff →
  Forall (fun a => a ≠ "]"%char ∧ a ≠ newline) ops →
  match_loose_term (coeff ++ " [" ++ ops ++ "]"%char :: rest)
  = Some (coeff, ops).
Proof.
  intros Hne Hcoeff Hops.
  induction coeff as [|c coeff IH]; [done|].
  inversion Hcoeff as [|? ? Hc Hcoeff']; subst.
  change ((c :: coeff) ++ " [" ++ ops ++ "]"%char :: rest)
    with (c :: (coeff ++ " [" ++ ops ++ "]"%char :: rest)).
  rewrite match_loose_term_cons, Hc.
  destruct coeff as [|c' coeff].
  - simpl. unfold bracketed. simpl.
    by rewrite lazy_dot_until_app.
  - by rewrite IH.
Qed.

Lemma normalize_term_no_bracket (term : str) :
  "["%char ∉ term → normalize_term term = None.
Proof.
  intros Hno. unfold normalize_term.
  destruct (strip term) as [|c s] eqn:E; [done|].
  destruct (match_loose_term (c :: s)) as [[coeff ops]|] eqn:E'; [|done].
  exfalso. apply Hno, elem_of_strip. rewrite E.
  apply match_loose_term_elem. eauto.
Qed.

Lemma normalize_term_loose (coeff ops : str) :
  coeff ≠ [] → Forall (fun c => isspace c = false) coeff →
  Forall (fun a => a ≠ "]"%char ∧ a ≠ newline) ops →
  normalize_term (coeff ++ " [" ++ ops ++ "]")
  = Some ("(" ++ coeff ++ ") [" ++ strip ops ++ "]").
Proof.
  intros Hne Hcoeff Hops. unfold normalize_term.
  assert (Hstrip : strip (coeff ++ " [" ++ ops ++ "]")
                   = coeff ++ " [" ++ ops ++ "]").
  { destruct coeff as [|c coeff]; [done|].
    inversion Hcoeff; subst.
    replace ((c :: coeff) ++ " [" ++ ops ++ "]")
      with (c :: (coeff ++ " [" ++ ops) ++ ["]"%char]).
    2: { simpl. f_equal. by rewrite <- !app_assoc. }
    by apply strip_id. }
  rewrite Hstrip.
  destruct (coeff ++ " [" ++ ops ++ "]") as [|c s] eqn:E.
  { by destruct coeff. }
  rewrite <- E.
  change (list_ascii_of_string "]") with ["]"%char].
  by rewrite match_loose_term_app.
Qed.

Lemma split_nonempty (c : ascii) (s : str) : split c s ≠ [].
Proof.
  destruct s as [|a s]; simpl; [done|].
  destruct (Ascii.eqb a c); [done|]. by destruct (split c s).
Qed.

Lemma split_app_sep (c : ascii) (s t : str) :
  split c (s ++ c :: t) = split c s ++ split c t.
Proof.
  induction s as [|a s IH]; simpl.
  - by rewrite Ascii.eqb_refl.
  - destruct (Ascii.eqb a c); [by rewrite IH|].
    rewrite IH. pose proof (split_nonempty c s).
    by destruct (split c s).
Qed.

Lemma elem_of_split (c : ascii) (s piece : str) (a : ascii) :
  piece ∈ split c s → a ∈ piece → a ∈ s.
Proof.
  revert piece. induction s as [|b s IH]; intros piece; simpl.
  - intros ->%list_elem_of_singleton Ha. inversion Ha.
  - destruct (Ascii.eqb b c).
    + intros [->|Hin]%elem_of_cons Ha; [inversion Ha|].
      right. by eapply IH.
    + destruct (split c s) as [|w ws].
      * intros ->%list_elem_of_singleton Ha.
        apply list_elem_of_singleton in Ha as ->. left.
      * intros [->|Hin]%elem_of_cons Ha.
        -- apply elem_of_cons in Ha as [->|Ha]; [left|right].
           apply (IH w); [left|done].
        -- right. apply (IH piece); [by right|done].
Qed.

Lemma omap_all_None {A B} (f : A → option B) (l : list A) :
  (∀ x, x ∈ l → f x = None) → omap f l = [].
Proof.
  induction l as [|x l IH]; intros Hall; [done|].
  change (omap f (x :: l))
    with (match f x with Some y => y :: omap f l | None => omap f l end).
  rewrite (Hall x) by left. apply IH. intros y Hy. apply Hall. by right.
Qed.

(** C9: the normaliser cuts its input at every [+] before it looks for
    terms, so a loose term whose coefficient itself holds a [+] (as the
    complex literal 1.0+0.5j does) is cut apart: what stands before the
    last [+] has no bracketed operator list and is dropped, and the part
    after it alone becomes the canonical term. *)
Theorem normalize_data_format_splits_coefficient (re im ops : str) :
  "["%char ∉ re →
  im ≠ [] → Forall (fun c => isspace c = false) im → "+"%char ∉ im →
  Forall (fun a => a ≠ "]"%char ∧ a ≠ newline) ops → "+"%char ∉ ops →
  split "+" (re ++ "+" ++ im ++ " [" ++ ops ++ "]")
  = split "+" re ++ [im ++ " [" ++ ops ++ "]"]
  ∧ (∀ piece, piece ∈ split "+" re → normalize_term piece = None)
  ∧ normalize_data_format (re ++ "+" ++ im ++ " [" ++ ops ++ "]")
    = "(" ++ im ++ ") [" ++ strip ops ++ "]".
Proof.
  intros Hre Him1 Him2 Him3 Hops1 Hops2.
  assert (Hsplit : split "+" (re ++ "+" ++ im ++ " [" ++ ops ++ "]")
                   = split "+" re ++ [im ++ " [" ++ ops ++ "]"]).
  { change (re ++ "+" ++ im ++ " [" ++ ops ++ "]")
      with (re ++ "+"%char :: (im ++ " [" ++ ops ++ "]")).
    rewrite split_app_sep. f_equal. apply split_notin.
    rewrite !not_elem_of_app. repeat split; try done.
    - by apply contains_false.
    - by apply contains_false. }
  assert (Hdrop : ∀ piece, piece ∈ split "+" re → normalize_term piece = None).
  { intros piece Hpiece. apply normalize_term_no_bracket.
    intros Hin. apply Hre. by eapply elem_of_split. }
  split; [done|]. split; [done|].
  unfold normalize_data_format. rewrite Hsplit, omap_app.
  rewrite omap_all_None by done.
  pose proof (normalize_term_loose im ops Him1 Him2 Hops1) as Hkeep.
  remember (im ++ " [" ++ ops ++ "]") as term eqn:Hterm.
  remember ("(" ++ im ++ ") [" ++ strip ops ++ "]") as canonical.
  change (omap normalize_term [term])
    with (match normalize_term term with
          | Some y => [y]
          | None => []
          end).
  by rewrite Hkeep.
Qed.

Lemma normalize_data_format_splits_coefficient_witness :
  normalize_data_format "1.0+0.5j [X0 Y1]" = "(0.5j) [X0 Y1]".
Proof.
  refine (proj2 (proj2 (normalize_data_format_splits_coefficient
                          "1.0" "0.5j" "X0 Y1" _ _ _ _ _ _))).
  - by apply contains_false.
  - done.
  - by repeat constructor.
  - by apply contains_false.
  - repeat constructor; by vm_compute.
  - by apply contains_false.
Defined.

(** ** Format detector and the composition [normalize_if_needed] *)

Lemma isdigit_not_space (c : ascii) : isdigit c = true → isspace c = false.
Proof. destruct c as [[] [] [] [] [] [] [] []]; by vm_compute. Qed.

Lemma needs_normalization_No (data : str) :
  needs_normalization data = "No" ↔ search_detector data = true.
Proof. unfold needs_normalization. by destruct (search_detector data). Qed.

Lemma search_detector_head (s : str) :
  is_Some (match_detector s) → search_detector s = true.
Proof.
  destruct s as [|c s]; [by intros [? ?]|]. intros H.
  change (search_detector (c :: s))
    with (bool_decide (is_Some (match_detector (c :: s)))
          || search_detector s).
  by rewrite bool_decide_eq_true_2.
Qed.

Lemma bind_Some {A B} (f : A → option B) (x : A) : (Some x ≫= f) = f x.
Proof. reflexivity. Qed.

Lemma expect_cons (c : ascii) (s : str) : expect c (c :: s) = Some s.
Proof. simpl. by rewrite Ascii.eqb_refl. Qed.

Lemma expect_other (c a : ascii) (s : str) : a ≠ c → expect c (a :: s) = None.
Proof. intros H. simpl. by destruct (Ascii.eqb_spec a c). Qed.

Lemma digits1_app (ds rest : str) :
  ds ≠ [] → forallb isdigit ds = true → starts_with_digit rest = false →
  digits1 (ds ++ rest) = Some rest.
Proof.
  intros Hne Hds Hrest. destruct ds as [|d ds]; [done|]. simpl in *.
  apply andb_true_iff in Hds as [-> Hds]. by rewrite skip_digits_app.
Qed.

(** The detector accepts, at its head, a text that starts with a
    canonical term whose coefficient is a plain decimal. *)
Lemma match_detector_decimal (int frac body rest : str) :
  int ≠ [] → forallb isdigit int = true →
  frac ≠ [] → forallb isdigit frac = true →
  Forall (fun a => a ≠ "]"%char ∧ a ≠ newline) body →
  match_detector ("(" ++ int ++ "." ++ frac ++ ") [" ++ body ++ "]" ++ rest)
  = Some (body, rest).
Proof.
  intros Hi1 Hi2 Hf1 Hf2 Hbody. unfold match_detector.
  change ("(" ++ int ++ "." ++ frac ++ ") [" ++ body ++ "]" ++ rest)
    with ("("%char :: int ++ "."%char :: frac ++ ")"%char :: " "%char
          :: "["%char :: body ++ "]"%char :: rest).
  rewrite expect_cons, bind_Some.
  destruct int as [|d int]; [done|].
  assert (Hd : isdigit d = true) by (simpl in Hi2; by destruct (isdigit d)).
  change ((d :: int) ++ ?x) with (d :: (int ++ x)).
  rewrite lstrip_nonspace by by apply isdigit_not_space.
  assert (optional "-" (d :: int ++ "."%char :: frac ++ ")"%char :: " "%char
                        :: "["%char :: body ++ "]"%char :: rest)
          = (d :: int) ++ "."%char :: frac ++ ")"%char :: " "%char
            :: "["%char :: body ++ "]"%char :: rest) as ->.
  { unfold optional. rewrite expect_other; [done|].
    intros ->. by vm_compute in Hd. }
  rewrite digits1_app, bind_Some by done.
  rewrite expect_cons, bind_Some.
  rewrite digits1_app by done.
  cbn [default]. simpl. unfold bracketed. simpl.
  by rewrite lazy_dot_until_app.
Qed.

Lemma normalize_data_format_single (blob : str) :
  "+"%char ∉ blob →
  normalize_data_format blob = default [] (normalize_term blob).
Proof.
  intros Hno. unfold normalize_data_format.
  change (list_ascii_of_string "+") with ["+"%char] in *.
  rewrite split_notin by done.
  change (omap normalize_term [blob])
    with (match normalize_term blob with
          | Some y => [y]
          | None => []
          end).
  by destruct (normalize_term blob).
Qed.

Lemma normalize_if_needed_accepted (blob : str) :
  needs_normalization blob = "No" → normalize_if_needed blob = blob.
Proof. intros H. unfold normalize_if_needed. by rewrite decide_True. Qed.

(** C8 (as stated, refuted): the loose term [1e3 [X0]] is normalised to
    [(1e3) [X0]], which the detector does not accept either (its
    pattern has no exponent), so a second application wraps the
    coefficient once more. *)
Lemma normalize_if_needed_not_idempotent :
  normalize_if_needed "1e3 [X0]" = "(1e3) [X0]"
  ∧ normalize_if_needed (normalize_if_needed "1e3 [X0]") = "((1e3)) [X0]"
  ∧ normalize_if_needed (normalize_if_needed "1e3 [X0]")
    ≠ normalize_if_needed "1e3 [X0]".
Proof. repeat split; by vm_compute. Qed.

(** C8 (amended): [normalize_if_needed] returns unchanged every blob
    that the format detector reports canonical, and applying it twice
    yields the same result as applying it once for every blob whose
    first result the detector reports canonical or is empty; this holds
    in particular for a loose term whose coefficient is a plain decimal
    (digits, a point, digits). *)
Theorem normalize_if_needed_idempotent_when_accepted (blob : str) :
  (needs_normalization blob = "No" → normalize_if_needed blob = blob)
  ∧ (needs_normalization (normalize_if_needed blob) = "No"
     ∨ normalize_if_needed blob = [] →
     normalize_if_needed (normalize_if_needed blob)
     = normalize_if_needed blob)
  ∧ (∀ int frac ops : str,
        blob = int ++ "." ++ frac ++ " [" ++ ops ++ "]" →
        int ≠ [] → forallb isdigit int = true →
        frac ≠ [] → forallb isdigit frac = true →
        Forall (fun a => a ≠ "]"%char ∧ a ≠ newline) ops →
        "+"%char ∉ ops →
        normalize_if_needed (normalize_if_needed blob)
        = normalize_if_needed blob).
Proof.
  split; [apply normalize_if_needed_accepted|]. split.
  - intros [H|H]; [by apply normalize_if_needed_accepted|].
    rewrite H. by vm_compute.
  - intros int frac ops -> Hi1 Hi2 Hf1 Hf2 Hops Hplus.
    set (blob := int ++ "." ++ frac ++ " [" ++ ops ++ "]").
    apply normalize_if_needed_accepted.
    unfold normalize_if_needed. case_decide as Hacc; [done|].
    assert (Hnoplus : "+"%char ∉ blob).
    { subst blob. rewrite !not_elem_of_app. repeat split; try done.
      - intros Hin. apply list_elem_of_In, (proj1 (forallb_forall _ _) Hi2)
          in Hin. by vm_compute in Hin.
      - by apply contains_false.
      - intros Hin. apply list_elem_of_In, (proj1 (forallb_forall _ _) Hf2)
          in Hin. by vm_compute in Hin.
      - by apply contains_false.
      - by apply contains_false. }
    rewrite normalize_data_format_single by done.
    assert (Hcoeff : Forall (fun c => isspace c = false) (int ++ "." ++ frac)).
    { rewrite !Forall_app. repeat split.
      - apply Forall_forall. intros c Hc. apply isdigit_not_space.
        by apply (proj1 (forallb_forall _ _) Hi2), list_elem_of_In.
      - by repeat constructor.
      - apply Forall_forall. intros c Hc. apply isdigit_not_space.
        by apply (proj1 (forallb_forall _ _) Hf2), list_elem_of_In. }
    subst blob.
    replace (int ++ "." ++ frac ++ " [" ++ ops ++ "]")
      with ((int ++ "." ++ frac) ++ " [" ++ ops ++ "]")
      by (by rewrite <- !app_assoc).
    rewrite normalize_term_loose; [|by destruct int|done|done].
    cbn [default]. apply needs_normalization_No, search_detector_head.
    replace ("(" ++ (int ++ "." ++ frac) ++ ") [" ++ strip ops ++ "]")
      with ("(" ++ int ++ "." ++ frac ++ ") [" ++ strip ops ++ "]" ++ [])
      by (by rewrite <- !app_assoc, app_nil_r).
    unfold id. rewrite match_detector_decimal; [by eexists|done..|].
    apply Forall_forall. intros a Ha%elem_of_strip.
    by apply (proj1 (Forall_forall _ _) Hops).
Qed.

Lemma normalize_if_needed_idempotent_when_accepted_witness :
  normalize_if_needed (normalize_if_needed "1.0 [X0 Y1] + 2.0 [Z2]")
  = normalize_if_needed "1.0 [X0 Y1] + 2.0 [Z2]"
  ∧ normalize_if_needed "(1.0) [X0 Y1]" = "(1.0) [X0 Y1]"
  ∧ normalize_if_needed (normalize_if_needed "2.50 [ Z2 ]")
    = normalize_if_needed "2.50 [ Z2 ]".
Proof.
  split; [|split].
  - apply (proj1 (proj2 (normalize_if_needed_idempotent_when_accepted
                           "1.0 [X0 Y1] + 2.0 [Z2]"))).
    left. by vm_compute.
  - apply (proj1 (normalize_if_needed_idempotent_when_accepted
                    "(1.0) [X0 Y1]")).
    by vm_compute.
  - refine (proj2 (proj2 (normalize_if_needed_idempotent_when_accepted
                            "2.50 [ Z2 ]")) "2" "50" " Z2 " _ _ _ _ _ _ _);
      try done.
    + repeat constructor; by vm_compute.
    + by apply contains_false.
Defined.

(** ** Variable-range aggregator: the order of the values *)

Lemma nat_of_ascii_inj (a b : ascii) :
  nat_of_ascii a = nat_of_ascii b → a = b.
Proof.
  intros H. rewrite <- (ascii_nat_embedding a), <- (ascii_nat_embedding b).
  by rewrite H.
Qed.

Lemma str_lt_irrefl (x : str) : str_lt x x = false.
Proof.
  induction x as [|a x IH]; simpl; [done|].
  rewrite IH, Nat.ltb_irrefl. by rewrite andb_false_r.
Qed.

Lemma str_lt_cons (a b : ascii) (x y : str) :
  str_lt (a :: x) (b :: y) = true ↔
  nat_of_ascii a < nat_of_ascii b ∨ (a = b ∧ str_lt x y = true).
Proof.
  simpl. rewrite orb_true_iff, andb_true_iff, Nat.ltb_lt, Nat.eqb_eq.
  split; (intros [H|[H1 H2]]; [by left|right; split; [|done]]).
  - by apply nat_of_ascii_inj.
  - by rewrite H1.
Qed.

Lemma str_lt_trans (x y z : str) :
  str_lt x y = true → str_lt y z = true → str_lt x z = true.
Proof.
  revert y z. induction x as [|a x IH]; intros [|b y] [|c z]; try done.
  rewrite !str_lt_cons. intros [H1|[-> H1]] [H2|[-> H2]].
  - left. lia.
  - by left.
  - by left.
  - right. split; [done|]. by eapply IH.
Qed.

Lemma str_lt_total (x y : str) :
  str_lt x y = true ∨ x = y ∨ str_lt y x = true.
Proof.
  revert y. induction x as [|a x IH]; intros [|b y]; simpl; auto.
  destruct (lt_eq_lt_dec (nat_of_ascii a) (nat_of_ascii b)) as [[H|H]|H].
  - left. apply orb_true_iff. left. by apply Nat.ltb_lt.
  - apply nat_of_ascii_inj in H as ->. rewrite Nat.ltb_irrefl, Nat.eqb_refl.
    simpl. destruct (IH y) as [H|[->|H]]; auto.
  - right. right. apply orb_true_iff. left. by apply Nat.ltb_lt.
Qed.

Lemma str_lt_asym (x y : str) : str_lt x y = true → str_lt y x = false.
Proof.
  intros H. destruct (str_lt y x) eqn:E; [|done].
  by rewrite <- (str_lt_irrefl x), (str_lt_trans x y x).
Qed.

Lemma str_lt_negtrans (x y z : str) :
  str_lt x z = true → str_lt x y = true ∨ str_lt y z = true.
Proof.
  intros H. destruct (str_lt_total x y) as [Hxy|[->|Hyx]]; auto.
  right. by eapply str_lt_trans.
Qed.

Section Sorting.
Context (lt : str → str → bool).
Hypothesis lt_asym : ∀ x y, lt x y = true → lt y x = false.
Hypothesis lt_negtrans :
  ∀ x y z, lt x z = true → lt x y = true ∨ lt y z = true.

Lemma insort_Permutation (x : str) (l : list str) : insort lt x l ≡ₚ x :: l.
Proof.
  induction l as [|y l IH]; simpl; [done|].
  destruct (lt y x); [|done]. rewrite IH. apply Permutation_swap.
Qed.

Lemma sorted_Permutation (l : list str) : sorted lt l ≡ₚ l.
Proof.
  induction l as [|x l IH]; simpl; [done|].
  fold (sorted lt l). by rewrite insort_Permutation, IH.
Qed.

Lemma insort_StronglySorted (x : str) (l : list str) :
  StronglySorted (fun a b => lt b a = false) l →
  StronglySorted (fun a b => lt b a = false) (insort lt x l).
Proof.
  induction l as [|y l IH]; simpl; intros Hl.
  - by repeat constructor.
  - apply StronglySorted_inv in Hl as [Hl Hy].
    destruct (lt y x) eqn:E.
    + constructor; [by apply IH|].
      rewrite insort_Permutation. constructor; [by apply lt_asym|done].
    + constructor; [by constructor|]. constructor; [done|].
      eapply Forall_impl; [exact Hy|]. intros b Hb. simpl in Hb.
      destruct (lt b x) eqn:Ebx; [|done].
      destruct (lt_negtrans b y x Ebx); congruence.
Qed.

Lemma sorted_StronglySorted (l : list str) :
  StronglySorted (fun a b => lt b a = false) (sorted lt l).
Proof.
  induction l as [|x l IH]; simpl; [constructor|].
  by apply insort_StronglySorted.
Qed.
End Sorting.

Section KeyOrder.
Context {F : Type} (float : str → option F) (float_lt : F → F → bool).
Hypothesis float_lt_asym : ∀ a b, float_lt a b = true → float_lt b a = false.
Hypothesis float_lt_negtrans :
  ∀ a b c, float_lt a c = true → float_lt a b = true ∨ float_lt b c = true.

Lemma key_lt_asym (x y : str) :
  key_lt float float_lt x y = true → key_lt float float_lt y x = false.
Proof.
  unfold key_lt. destruct (float x), (float y); try done.
  - apply float_lt_asym.
  - apply str_lt_asym.
Qed.

Lemma key_lt_negtrans (x y z : str) :
  key_lt float float_lt x z = true →
  key_lt float float_lt x y = true ∨ key_lt float float_lt y z = true.
Proof.
  unfold key_lt.
  destruct (float x), (float y), (float z); try done;
    auto using str_lt_negtrans.
Qed.

(** A list sorted by the keys is a run of values that are not numeric,
    in lexical order, followed by a run of numeric values, in ascending
    order. *)
Lemma key_sorted_split (l : list str) :
  StronglySorted (fun x y => key_lt float float_lt y x = false) l →
  ∃ symbolic numeric,
    l = symbolic ++ numeric
    ∧ Forall (fun v => is_numeric float v = false) symbolic
    ∧ Forall (fun v => is_numeric float v = true) numeric
    ∧ StronglySorted (fun x y => str_lt y x = false) symbolic
    ∧ StronglySorted
        (fun x y => ∀ a b, float x = Some a → float y = Some b →
                           float_lt b a = false) numeric.
Proof.
  induction l as [|v l IH]; intros Hl.
  - exists [], []. by repeat constructor.
  - apply StronglySorted_inv in Hl as [Hl Hv].
    destruct (IH Hl) as (sym & num & -> & Hsym & Hnum & Ssym & Snum).
    apply Forall_app in Hv as [Hvsym Hvnum].
    destruct (float v) as [a|] eqn:Ev.
    + assert (sym = []) as ->.
      { destruct sym as [|y sym]; [done|]. exfalso.
        apply Forall_cons in Hvsym as [Hy _].
        apply Forall_cons in Hsym as [Hyn _].
        unfold is_numeric in Hyn. unfold key_lt in Hy. rewrite Ev in Hy.
        by destruct (float y). }
      exists [], (v :: num). repeat split; try done.
      * constructor; [|done]. unfold is_numeric. by rewrite Ev.
      * constructor; [done|].
        eapply Forall_impl; [exact Hvnum|]. intros y Hy a' b Ha' Hb.
        simpl in Hy. unfold key_lt in Hy. rewrite Ev, Hb in Hy. congruence.
    + exists (v :: sym), num. repeat split; try done.
      * constructor; [|done]. unfold is_numeric. by rewrite Ev.
      * constructor; [done|].
        rewrite Forall_forall in Hvsym, Hsym. apply Forall_forall.
        intros y Hy. specialize (Hvsym y Hy). specialize (Hsym y Hy).
        simpl in Hvsym. unfold key_lt in Hvsym. unfold is_numeric in Hsym.
        rewrite Ev in Hvsym. by destruct (float y).
Qed.
End KeyOrder.

(** C4 (as stated, refuted): the values 4, 1D, 2 are printed as
    1D, 2, 4: the value that is not numeric comes first, for its key
    starts with [False]. *)
Lemma sorted_values_symbolic_before_numeric :
  sorted (key_lt float_of_integer Z.ltb) ["4"; "1D"; "2"] = ["1D"; "2"; "4"]
  ∧ sorted (key_lt float_of_integer Z.ltb) ["4"; "1D"; "2"]
    ≠ ["2"; "4"; "1D"].
Proof. split; by vm_compute. Qed.

(** C4 (amended): the value ordering of the aggregator places the values
    that are not numeric first, in lexical order, followed by the
    numeric values in ascending numeric order; in particular the value
    set {"4","1D","2"}, in whatever order the set is iterated, sorts to
    ["1D","2","4"]. *)
Theorem sorted_values_order {F : Type} (float : str → option F)
  (float_lt : F → F → bool) (values : list str) :
  (∀ a b, float_lt a b = true → float_lt b a = false) →
  (∀ a b c, float_lt a c = true → float_lt a b = true ∨ float_lt b c = true) →
  sorted (key_lt float float_lt) values ≡ₚ values
  ∧ (∃ symbolic numeric,
        sorted (key_lt float float_lt) values = symbolic ++ numeric
        ∧ Forall (fun v => is_numeric float v = false) symbolic
        ∧ Forall (fun v => is_numeric float v = true) numeric
        ∧ StronglySorted (fun x y => str_lt y x = false) symbolic
        ∧ StronglySorted
            (fun x y => ∀ a b, float x = Some a → float y = Some b →
                               float_lt b a = false) numeric)
  ∧ (∀ iterated : list str,
        iterated ≡ₚ ["4"; "1D"; "2"] →
        sorted (key_lt float_of_integer Z.ltb) iterated = ["1D"; "2"; "4"]).
Proof.
  intros Hasym Hnegtrans. split; [apply sorted_Permutation|]. split.
  - apply key_sorted_split, sorted_StronglySorted.
    + by apply key_lt_asym.
    + by apply key_lt_negtrans.
  - intros iterated Hperm. symmetry in Hperm.
    apply permutations_Permutation in Hperm.
    vm_compute in Hperm.
    repeat (apply elem_of_cons in Hperm as [->|Hperm]; [by vm_compute|]).
    inversion Hperm.
Qed.

Lemma sorted_values_order_witness :
  sorted (key_lt float_of_integer Z.ltb) ["10"; "ring"; "9"; "1D"; "-3"]
  ≡ₚ ["10"; "ring"; "9"; "1D"; "-3"]
  ∧ sorted (key_lt float_of_integer Z.ltb) ["2"; "4"; "1D"] = ["1D"; "2"; "4"].
Proof.
  assert (Hasym : ∀ a b, Z.ltb a b = true → Z.ltb b a = false) by lia.
  assert (Hnegtrans : ∀ a b c, Z.ltb a c = true →
                               Z.ltb a b = true ∨ Z.ltb b c = true) by lia.
  split.
  - exact (proj1 (sorted_values_order float_of_integer Z.ltb
                    ["10"; "ring"; "9"; "1D"; "-3"] Hasym Hnegtrans)).
  - refine (proj2 (proj2 (sorted_values_order float_of_integer Z.ltb
                            [] Hasym Hnegtrans)) ["2"; "4"; "1D"] _).
    apply (bool_decide_unpack _). by vm_compute.
Defined.

(** ** Variable-range aggregator: the report *)

Lemma dict_get_set_eq {V} (d : Dict.t V) (k : str) (v : V) :
  Dict.get (Dict.set d k v) k = Some v.
Proof.
  induction d as [|[k' v'] d IH]; simpl.
  - by rewrite decide_True.
  - destruct (decide (k' = k)) as [->|Hne]; simpl.
    + by rewrite decide_True.
    + by rewrite decide_False.
Qed.

Lemma dict_get_set_ne {V} (d : Dict.t V) (k k' : str) (v : V) :
  k ≠ k' → Dict.get (Dict.set d k v) k' = Dict.get d k'.
Proof.
  intros Hne. induction d as [|[k0 v0] d IH]; simpl.
  - by rewrite decide_False.
  - destruct (decide (k0 = k)) as [->|Hne0]; simpl.
    + by rewrite !decide_False.
    + by rewrite IH.
Qed.

Lemma dict_get_elem {V} (d : Dict.t V) (k : str) (v : V) :
  Dict.get d k = Some v → (k, v) ∈ d.
Proof.
  induction d as [|[k' v'] d IH]; simpl; [done|].
  destruct (decide (k' = k)) as [->|Hne].
  - intros [= ->]. left.
  - intros H. right. auto.
Qed.

(** A value once in the set of a variable stays there. *)
Lemma add_value_keeps (variable_values : Dict.t (list str))
  (item : str * str) (var val : str) (values : list str) :
  Dict.get variable_values var = Some values → val ∈ values →
  ∃ values', Dict.get (add_value variable_values item) var = Some values'
             ∧ val ∈ values'.
Proof.
  destruct item as [var' val']. intros Hget Hin. unfold add_value.
  destruct (decide (var' = var)) as [->|Hne].
  - rewrite dict_get_set_eq, Hget. simpl. eexists. split; [done|].
    case_decide; [done|]. apply elem_of_app. by left.
  - rewrite dict_get_set_ne by done. eauto.
Qed.

Lemma add_value_adds (variable_values : Dict.t (list str)) (var val : str) :
  ∃ values, Dict.get (add_value variable_values (var, val)) var = Some values
            ∧ val ∈ values.
Proof.
  unfold add_value. rewrite dict_get_set_eq. eexists. split; [done|].
  case_decide; [done|]. apply elem_of_app. right. left.
Qed.

Lemma foldl_add_value_keeps (variables : Dict.t str)
  (variable_values : Dict.t (list str)) (var val : str) (values : list str) :
  Dict.get variable_values var = Some values → val ∈ values →
  ∃ values', Dict.get (foldl add_value variable_values variables) var
             = Some values' ∧ val ∈ values'.
Proof.
  revert variable_values values.
  induction variables as [|item variables IH]; intros vv values Hget Hin.
  - simpl. eauto.
  - simpl. destruct (add_value_keeps vv item var val values Hget Hin)
      as (values' & Hget' & Hin'). eauto.
Qed.

Lemma foldl_add_value_adds (variables : Dict.t str)
  (variable_values : Dict.t (list str)) (var val : str) :
  (var, val) ∈ variables →
  ∃ values, Dict.get (foldl add_value variable_values variables) var
            = Some values ∧ val ∈ values.
Proof.
  revert variable_values.
  induction variables as [|item variables IH]; intros vv Hin.
  - inversion Hin.
  - apply elem_of_cons in Hin as [<-|Hin]; simpl; [|by apply IH].
    destruct (add_value_adds vv var val) as (values & Hget & Hval).
    by eapply foldl_add_value_keeps.
Qed.

(** C5 (as stated, refuted): with the fixed constraint graph=ring only
    the record [a_graph-ring_size-2] is selected, and all its variables
    are reported, the fixed one included: the entry of dataset "a" is
    not {"size": ["2"]}. *)
Lemma extract_variable_ranges_reports_fixed_variable :
  extract_variable_ranges float_of_integer Z.ltb example_store
    ["a:a.hdf5:graph=ring"]
  = Ok {| printed := [("a", [("graph", ["ring"]); ("size", ["2"])])];
          returned := None |}
  ∧ (∀ o, extract_variable_ranges float_of_integer Z.ltb example_store
            ["a:a.hdf5:graph=ring"] = Ok o →
          Dict.get (printed o) "a" ≠ Some [("size", ["2"])]).
Proof.
  split; [by vm_compute|]. intros o Ho. vm_compute in Ho.
  injection Ho as <-. by vm_compute.
Qed.

(** C5 (amended): given the record names
    ["a_size-2","a_size-4","a_graph-ring_size-2"] for dataset "a" with
    the fixed constraint graph=ring, the aggregated per-variable report
    for that dataset is exactly {"graph": ["ring"], "size": ["2"]},
    whatever [float] and its order are: the selected record contributes
    all its variables, the fixed one too. *)
Theorem extract_variable_ranges_fixed_filter {F : Type}
  (float : str → option F) (float_lt : F → F → bool) :
  (∀ variable_values item fixed_variable fixed_value,
      contains ":" item = false →
      Dict.get (parse_instance_variables item) fixed_variable
      = Some fixed_value →
      ∃ values,
        Dict.get (scan_item (Some (fixed_variable, fixed_value))
                    variable_values item) fixed_variable = Some values
        ∧ fixed_value ∈ values)
  ∧ scan_item (Some ("graph", "ring")) [] "a_size-2" = []
  ∧ scan_item (Some ("graph", "ring")) [] "a_size-4" = []
  ∧ scan_item (Some ("graph", "ring")) [] "a_graph-ring_size-2"
    = [("graph", ["ring"]); ("size", ["2"])]
  ∧ extract_variable_ranges float float_lt example_store
      ["a:a.hdf5:graph=ring"]
    = Ok {| printed := [("a", [("graph", ["ring"]); ("size", ["2"])])];
            returned := None |}.
Proof.
  split; [|repeat split; by vm_compute].
  intros vv item fv fval Hcolon Hget. unfold scan_item.
  rewrite Hcolon, bool_decide_eq_true_2 by done.
  by apply foldl_add_value_adds, dict_get_elem.
Qed.

Lemma extract_variable_ranges_fixed_filter_witness :
  ∃ values,
    Dict.get (scan_item (Some ("graph", "ring")) [("size", ["4"])]
                "a_graph-ring_size-2") "graph" = Some values
    ∧ list_ascii_of_string "ring" ∈ values.
Proof.
  refine (proj1 (extract_variable_ranges_fixed_filter float_of_integer Z.ltb)
            [("size", ["4"])] "a_graph-ring_size-2" "graph" "ring" _ _);
    reflexivity.
Defined.

(** C2 (the code departs from the claim and from its own docstring):
    [extract_variable_ranges] builds the variable range report and
    prints it, but it has no [return] statement: whenever it ends
    without an exception the caller receives [None], here for an input
    whose report is not empty. *)
Theorem extract_variable_ranges_returns_none {F : Type}
  (float : str → option F) (float_lt : F → F → bool)
  (h5_keys : str → option (list str)) (file_input : list str) :
  match extract_variable_ranges float float_lt h5_keys file_input with
  | Ok o => returned o = None
  | Raise _ => True
  end
  ∧ extract_variable_ranges float_of_integer Z.ltb example_store
      ["a:a.hdf5"]
    = Ok {| printed := [("a", [("size", ["2"; "4"]); ("graph", ["ring"])])];
            returned := None |}.
Proof.
  split; [|by vm_compute].
  unfold extract_variable_ranges.
  by destruct (scan_entries h5_keys [] file_input).
Qed.

(** * Further properties *)

(** ** Qubit count *)

Section QubitCountMore.
Context {A C : Type}.
Implicit Types (terms : list (gmap Z A * C)).

Lemma max_qubit_step (m : Z) (term : gmap Z A * C) :
  match max_key term.1 with
  | Some max_in_term => if (max_in_term >? m)%Z then max_in_term else m
  | None => m
  end
  = match max_key term.1 with
    | Some max_in_term => Z.max m max_in_term
    | None => m
    end.
Proof.
  destruct (max_key term.1) as [k|]; [|done].
  destruct (Z.gtb_spec k m); lia.
Qed.

Lemma max_qubit_from_cons (m : Z) (term : gmap Z A * C) terms :
  max_qubit_from m (term :: terms)
  = max_qubit_from (match max_key term.1 with
                    | Some max_in_term => Z.max m max_in_term
                    | None => m
                    end) terms.
Proof. unfold max_qubit_from. simpl. by rewrite max_qubit_step. Qed.

Lemma max_qubit_from_start (m : Z) terms :
  (0 ≤ m)%Z → max_qubit_from m terms = Z.max m (max_qubit_from 0 terms).
Proof.
  revert m. induction terms as [|term terms IH]; intros m Hm.
  - unfold max_qubit_from. simpl. lia.
  - rewrite !max_qubit_from_cons.
    destruct (max_key term.1) as [k|].
    + rewrite (IH (Z.max m k)), (IH (Z.max 0 k)) by lia. lia.
    + by apply IH.
Qed.

Lemma max_qubit_from_nonneg terms : (0 ≤ max_qubit_from 0 terms)%Z.
Proof. by destruct (max_qubit_from_spec terms 0) as (H & _). Qed.
End QubitCountMore.

(** X1: the count is at least 1 and strictly above every qubit index
    that carries an operator in some term, so every recorded operator
    fits a register of that many qubits. *)
Theorem determine_qubit_count_bounds {A C} (terms : list (gmap Z A * C))
  (k : Z) :
  (1 ≤ determine_qubit_count terms)%Z
  ∧ (observed terms k → (k < determine_qubit_count terms)%Z).
Proof.
  unfold determine_qubit_count.
  destruct (max_qubit_from_spec terms 0) as (Hge & Hub & _). simpl in *.
  split; [lia|]. intros Hk. specialize (Hub k Hk). lia.
Qed.

Lemma determine_qubit_count_bounds_witness :
  (7 < determine_qubit_count
         [(({[7%Z := "X"%char]} : gmap Z ascii), 1%Z)])%Z.
Proof.
  refine (proj2 (determine_qubit_count_bounds _ 7%Z) _).
  eexists. split; [left|]. simpl. by eexists.
Defined.

(** X2: the count of a concatenation of two lists is the larger of the
    two counts. *)
Theorem determine_qubit_count_app {A C} (terms1 terms2 : list (gmap Z A * C)) :
  determine_qubit_count (terms1 ++ terms2)
  = Z.max (determine_qubit_count terms1) (determine_qubit_count terms2).
Proof.
  unfold determine_qubit_count.
  assert (max_qubit_from 0 (terms1 ++ terms2)
          = max_qubit_from (max_qubit_from 0 terms1) terms2) as ->.
  { unfold max_qubit_from. by rewrite foldl_app. }
  rewrite max_qubit_from_start by apply max_qubit_from_nonneg. lia.
Qed.

(** X3: the count does not depend on the order of the terms. *)
Theorem determine_qubit_count_Permutation {A C}
  (terms1 terms2 : list (gmap Z A * C)) :
  terms1 ≡ₚ terms2 →
  determine_qubit_count terms1 = determine_qubit_count terms2.
Proof.
  intros Hperm. unfold determine_qubit_count. f_equal.
  generalize 0%Z.
  induction Hperm as [|term l l' _ IH|t1 t2 l|l l' l'' _ IH1 _ IH2];
    intros m.
  - done.
  - rewrite !max_qubit_from_cons. apply IH.
  - rewrite !max_qubit_from_cons. f_equal.
    destruct (max_key t1.1), (max_key t2.1); lia.
  - by rewrite IH1.
Qed.

Lemma determine_qubit_count_Permutation_witness :
  determine_qubit_count
    [(({[4%Z := "X"%char]} : gmap Z ascii), 1%Z); (∅, 2%Z)]
  = determine_qubit_count
      [((∅ : gmap Z ascii), 2%Z); ({[4%Z := "X"%char]}, 1%Z)].
Proof.
  apply determine_qubit_count_Permutation. apply Permutation_swap.
Defined.

(** ** Term parser: what an operator map holds *)

Lemma match_operator_Some (op : str) (l : ascii) (ds : str) :
  match_operator op = Some (l, ds) →
  is_pauli_letter l = true ∧ ds ≠ [] ∧ forallb isdigit ds = true
  ∧ ∃ rest, op = l :: ds ++ rest ∧ starts_with_digit rest = false.
Proof.
  destruct op as [|l' s]; simpl; [done|].
  destruct (is_pauli_letter l') eqn:Hl; [|done].
  destruct s as [|d s]; simpl; [done|].
  destruct (isdigit d) eqn:Hd; simpl; [|done].
  destruct (skip_digits_split s) as (ds' & Hs & Hds' & Hrest).
  intros [= <- <-].
  assert (Htake : take (S (length s) - length (skip_digits s)) (d :: s)
                  = d :: ds').
  { rewrite Hs at 1 3. rewrite length_app.
    replace (S (length ds' + length (skip_digits s))
             - length (skip_digits s)) with (S (length ds')) by lia.
    simpl. f_equal. by rewrite take_app_length. }
  rewrite Htake. repeat split; try done.
  - simpl. by rewrite Hd.
  - exists (skip_digits s). split; [|done]. simpl. by rewrite <- Hs.
Qed.

Lemma isdigit_value (c : ascii) :
  isdigit c = true → (0 ≤ digit_value c ≤ 9)%Z.
Proof.
  unfold isdigit, digit_value.
  intros [H1%Nat.leb_le H2%Nat.leb_le]%andb_true_iff. lia.
Qed.

Lemma foldl_digits_nonneg (ds : str) (acc : Z) :
  forallb isdigit ds = true → (0 ≤ acc)%Z →
  (0 ≤ foldl (fun acc c => 10 * acc + digit_value c) acc ds)%Z.
Proof.
  revert acc. induction ds as [|d ds IH]; intros acc Hds Hacc; simpl in *.
  - done.
  - apply andb_true_iff in Hds as [Hd%isdigit_value Hds].
    apply IH; [done|lia].
Qed.

Lemma int_of_digits_nonneg (ds : str) :
  forallb isdigit ds = true → (0 ≤ int_of_digits ds)%Z.
Proof. intros Hds. by apply foldl_digits_nonneg. Qed.

Lemma record_operator_well_formed (pauli_dict : gmap Z ascii) (op : str) :
  well_formed_map pauli_dict → well_formed_map (record_operator pauli_dict op).
Proof.
  intros Hwf. unfold record_operator.
  destruct (match_operator op) as [[l ds]|] eqn:E; [|done].
  apply match_operator_Some in E as (Hl & _ & Hds & _).
  intros k l'. destruct (decide (int_of_digits ds = k)) as [<-|Hne].
  - rewrite lookup_insert_eq. intros [= <-].
    split; [by apply int_of_digits_nonneg|done].
  - rewrite lookup_insert_ne by done. apply Hwf.
Qed.

Lemma parse_operators_well_formed (ops : str) :
  well_formed_map (parse_operators ops).
Proof.
  unfold parse_operators.
  assert (∀ toks d, well_formed_map d →
                    well_formed_map (foldl record_operator d toks)) as H.
  { induction toks as [|op toks IH]; intros d Hd; simpl; [done|].
    by apply IH, record_operator_well_formed. }
  apply H. intros k l. by rewrite lookup_empty.
Qed.

(** X4: whatever the text or the bytes, every operator map that the
    term parser returns holds only qubit indices that are not negative
    and only the letters X, Y and Z. *)
Theorem parse_result_well_formed {C : Type} (complex : str → option C)
  (max_str_digits : nat) (decode : list Byte.byte → option str)
  (data : pydata) (parsed_pauli_list : list (gmap Z ascii * C))
  (term : gmap Z ascii * C) :
  parse_hamiltonian_to_sparsepauliop complex max_str_digits decode data
  = Ok parsed_pauli_list →
  term ∈ parsed_pauli_list → well_formed_map term.1.
Proof.
  unfold parse_hamiltonian_to_sparsepauliop.
  destruct (decode_data decode data) as [text|e]; simpl; [|done].
  intros Hok%parse_terms_Ok Hin.
  induction Hok as [|t p ts ps [_ Hp] _ IH]; [inversion Hin|].
  apply elem_of_cons in Hin as [->|Hin]; [|by apply IH].
  rewrite Hp. apply parse_operators_well_formed.
Qed.

Lemma parse_result_well_formed_witness :
  well_formed_map ({[3%Z := "Y"%char]} : gmap Z ascii).
Proof.
  refine (parse_result_well_formed float_of_integer 4300 decode_utf8
            (Text "(2) [Y3 q5 Y-1]")
            [({[3%Z := "Y"%char]}, 2%Z)] ({[3%Z := "Y"%char]}, 2%Z) _ _).
  - by vm_compute.
  - left.
Defined.

Lemma int_of_digits_zeros (n : nat) (ds : str) :
  int_of_digits (replicate n "0"%char ++ ds) = int_of_digits ds.
Proof.
  unfold int_of_digits. rewrite foldl_app. f_equal.
  induction n as [|n IH]; simpl; [done|]. exact IH.
Qed.

Lemma replicate_zeros_digits (n : nat) (ds : str) :
  forallb isdigit ds = true →
  forallb isdigit (replicate n "0"%char ++ ds) = true.
Proof.
  intros Hds. rewrite forallb_app, Hds, andb_true_r.
  induction n as [|n IH]; simpl; [done|]. exact IH.
Qed.

(** X5: zeros in front of the index do not change the qubit a token
    names, as long as [int] accepts the index: with no limit on the
    digits of [int], or with zeros and digits together within the
    limit, the token records the entry of the token without the zeros
    ([X007] and [X7] record the same entry).  With more digits than the
    limit, zeros counted, the token raises [ValueError], whatever the
    token without the zeros does. *)
Theorem record_operator_leading_zeros (max_str_digits : nat)
  (pauli_dict : gmap Z ascii) (l : ascii) (n : nat) (ds rest : str) :
  is_pauli_letter l = true → ds ≠ [] → forallb isdigit ds = true →
  starts_with_digit rest = false →
  (max_str_digits = 0 ∨ n + length ds ≤ max_str_digits →
   record_operator_checked max_str_digits pauli_dict
     (l :: replicate n "0"%char ++ ds ++ rest)
   = Ok (<[int_of_digits ds := l]> pauli_dict)
   ∧ record_operator_checked max_str_digits pauli_dict (l :: ds ++ rest)
     = Ok (<[int_of_digits ds := l]> pauli_dict))
  ∧ (0 < max_str_digits < n + length ds →
     record_operator_checked max_str_digits pauli_dict
       (l :: replicate n "0"%char ++ ds ++ rest)
     = Raise ValueError).
Proof.
  intros Hl Hne Hds Hrest.
  assert (Hzeros : match_operator (l :: replicate n "0"%char ++ ds ++ rest)
                   = Some (l, replicate n "0"%char ++ ds)).
  { rewrite app_assoc. apply match_operator_prefix; try done.
    - by destruct n, ds.
    - by apply replicate_zeros_digits. }
  unfold record_operator_checked, int_of_str.
  rewrite Hzeros, (match_operator_prefix l ds rest) by done.
  rewrite length_app, length_replicate, int_of_digits_zeros.
  split.
  - intros Hlimit.
    assert ((0 <? max_str_digits) && (max_str_digits <? n + length ds)
            = false) as ->.
    { apply andb_false_iff. destruct Hlimit as [->|Hle]; [by left|].
      right. apply Nat.ltb_ge. lia. }
    assert ((0 <? max_str_digits) && (max_str_digits <? length ds)
            = false) as ->.
    { apply andb_false_iff. destruct Hlimit as [->|Hle]; [by left|].
      right. apply Nat.ltb_ge. lia. }
    done.
  - intros [Hpos Hlt].
    assert ((0 <? max_str_digits) && (max_str_digits <? n + length ds)
            = true) as ->.
    { apply andb_true_iff. split; apply Nat.ltb_lt; lia. }
    done.
Qed.

Lemma record_operator_leading_zeros_witness :
  record_operator_checked 4300 ∅ "X007" = Ok {[7%Z := "X"%char]}
  ∧ record_operator_checked 4300 ∅ "X7" = Ok {[7%Z := "X"%char]}
  ∧ record_operator_checked 4300 ∅ ("X" ++ replicate 4300 "0"%char ++ "7")
    = Raise ValueError.
Proof.
  pose proof (record_operator_leading_zeros 4300 ∅ "X" 2 "7" ""
                eq_refl ltac:(done) eq_refl eq_refl) as [H _].
  pose proof (record_operator_leading_zeros 4300 ∅ "X" 4300 "7" ""
                eq_refl ltac:(done) eq_refl eq_refl) as [_ H'].
  split; [|split].
  - apply H. right. simpl. lia.
  - apply H. right. simpl. lia.
  - rewrite app_nil_r in H'. apply H'. simpl. lia.
Defined.

(** ** Text: words *)

Lemma split_ws_space (s : str) : split_ws (" "%char :: s) = split_ws s.
Proof. reflexivity. Qed.









(** ** Instance-name parser: entries *)

Lemma split_piece_no_sep (c : ascii) (s piece : str) :
  piece ∈ split c s → c ∉ piece.
Proof.
  revert piece. induction s as [|a s IH]; intros piece; simpl.
  - intros ->%list_elem_of_singleton Hin. inversion Hin.
  - destruct (Ascii.eqb_spec a c) as [->|Hne].
    + intros [->|Hin]%elem_of_cons; [intros H; inversion H|by apply IH].
    + pose proof (split_nonempty c s) as Hn.
      destruct (split c s) as [|w ws]; [done|].
      intros [->|Hin]%elem_of_cons.
      * apply not_elem_of_cons. split; [done|]. apply IH. left.
      * apply IH. by right.
Qed.

Lemma find_Some (c : ascii) (s : str) (i : nat) :
  find c s = Some i → (c ∉ take i s) ∧ s = take i s ++ c :: drop (S i) s.
Proof.
  revert i. induction s as [|a s IH]; intros i; simpl; [done|].
  destruct (Ascii.eqb_spec a c) as [->|Hne].
  - intros [= <-]. simpl. split; [|done]. intros H. inversion H.
  - destruct (find c s) as [j|] eqn:E; simpl; [|done].
    intros [= <-]. destruct (IH j eq_refl) as [H1 H2]. simpl. split.
    + apply not_elem_of_cons. by split.
    + by rewrite <- H2.
Qed.

Lemma dict_set_elem {V} (d : Dict.t V) (k k' : str) (v v' : V) :
  (k, v) ∈ Dict.set d k' v' → (k, v) = (k', v') ∨ (k, v) ∈ d.
Proof.
  induction d as [|[k0 v0] d IH]; simpl.
  - intros ->%list_elem_of_singleton. by left.
  - destruct (decide (k0 = k')) as [->|Hne].
    + intros [->|Hin]%elem_of_cons; [by left|]. right. by right.
    + intros [->|Hin]%elem_of_cons; [right; left|].
      destruct (IH Hin) as [?|?]; [by left|]. right. by right.
Qed.

Lemma parse_instance_part_elem (variables : Dict.t str) (part var val : str) :
  (var, val) ∈ parse_instance_part variables part →
  (var, val) ∈ variables
  ∨ (part = var ++ "-"%char :: val ∧ "-"%char ∉ var).
Proof.
  unfold parse_instance_part.
  destruct (contains "-" part); [|by left].
  destruct (find "-" part) as [index|] eqn:E; [|by left].
  apply find_Some in E as [Hno Hpart].
  intros [[= -> ->]|Hin]%dict_set_elem; [|by left].
  right. split; [|done].
  by replace (index + 1) with (S index) by lia.
Qed.

(** X7: every entry of the map that the instance-name parser returns
    comes from a segment of the name: the variable is the part of the
    segment before its first hyphen and the value all that follows it.
    So no variable contains a hyphen or an underscore, and no value an
    underscore. *)
Theorem parse_instance_variables_entries (instance_name var val : str) :
  (var, val) ∈ parse_instance_variables instance_name →
  (var ++ "-"%char :: val) ∈ split "_" instance_name
  ∧ ("-"%char ∉ var) ∧ ("_"%char ∉ var) ∧ ("_"%char ∉ val).
Proof.
  unfold parse_instance_variables.
  assert (∀ parts variables,
             (var, val) ∈ foldl parse_instance_part variables parts →
             (var, val) ∈ variables
             ∨ ((var ++ "-"%char :: val) ∈ parts ∧ "-"%char ∉ var)) as H.
  { induction parts as [|part parts IH]; intros variables; simpl; [by left|].
    intros [[Hin|[-> Hno]]%parse_instance_part_elem|[Hin Hno]]%IH.
    - by left.
    - right. split; [left|done].
    - right. split; [by right|done]. }
  intros [Hin|[Hin Hno]]%H; [inversion Hin|].
  split; [done|]. split; [done|].
  apply split_piece_no_sep in Hin.
  apply not_elem_of_app in Hin as [H1 H2].
  apply not_elem_of_cons in H2 as [_ H2]. done.
Qed.

Lemma parse_instance_variables_entries_witness :
  ("h-0.5" : str) ∈ split "_" "tfim_h-0.5_n-4"
  ∧ ("-"%char ∉ ("h" : str)) ∧ ("_"%char ∉ ("h" : str))
  ∧ ("_"%char ∉ ("0.5" : str)).
Proof.
  refine (parse_instance_variables_entries "tfim_h-0.5_n-4" "h" "0.5" _).
  apply (bool_decide_unpack _). by vm_compute.
Defined.

Lemma foldl_parse_instance_part_plain (parts : list str)
  (variables : Dict.t str) :
  (∀ part, part ∈ parts → "-"%char ∉ part) →
  foldl parse_instance_part variables parts = variables.
Proof.
  revert variables.
  induction parts as [|part parts IH]; intros variables Hparts; simpl.
  - done.
  - rewrite parse_instance_part_plain by (apply Hparts; left).
    apply IH. intros p Hp. apply Hparts. by right.
Qed.

(** X8: a name without any hyphen carries no variable: the parser
    returns the empty map. *)
Theorem parse_instance_variables_no_hyphen (instance_name : str) :
  "-"%char ∉ instance_name → parse_instance_variables instance_name = [].
Proof.
  intros Hno. unfold parse_instance_variables.
  apply foldl_parse_instance_part_plain.
  intros part Hpart Hin. apply Hno. by eapply elem_of_split.
Qed.

Lemma parse_instance_variables_no_hyphen_witness :
  parse_instance_variables "tfim_4x4_pbc" = [].
Proof.
  apply parse_instance_variables_no_hyphen. by apply contains_false.
Defined.

(** X9: when several segments of a name carry the same variable, the
    value of the last one is the one kept. *)
Theorem parse_instance_variables_last_wins (instance_name var val : str) :
  "-"%char ∉ var → "_"%char ∉ var → "_"%char ∉ val →
  Dict.get (parse_instance_variables
              (instance_name ++ "_" ++ var ++ "-" ++ val)) var
  = Some val.
Proof.
  intros Hvar1 Hvar2 Hval. unfold parse_instance_variables.
  change (instance_name ++ "_" ++ var ++ "-" ++ val)
    with (instance_name ++ "_"%char :: (var ++ "-"%char :: val)).
  rewrite split_app_sep, foldl_app.
  rewrite (split_notin "_" (var ++ "-"%char :: val)).
  - simpl. rewrite parse_instance_part_hyphen by done.
    apply dict_get_set_eq.
  - rewrite not_elem_of_app, not_elem_of_cons. done.
Qed.

Lemma parse_instance_variables_last_wins_witness :
  Dict.get (parse_instance_variables "n-4_h-1_n-8") "n"
  = Some (list_ascii_of_string "8").
Proof.
  refine (parse_instance_variables_last_wins "n-4_h-1" "n" "8" _ _ _);
    by apply contains_false.
Defined.

(** ** Text: stripping padded text *)

Lemma lstrip_app_ws (ws s : str) :
  Forall (fun c => isspace c = true) ws → lstrip (ws ++ s) = lstrip s.
Proof.
  induction 1 as [|c ws Hc _ IH]; simpl; [done|]. by rewrite Hc.
Qed.

Lemma rstrip_app_ws (s ws : str) :
  Forall (fun c => isspace c = true) ws → rstrip (s ++ ws) = rstrip s.
Proof.
  intros Hws. unfold rstrip. rewrite rev_app_distr, lstrip_app_ws; [done|].
  apply Forall_forall. intros c Hc. apply (proj1 (elem_of_rev _ _)) in Hc.
  rewrite Forall_forall in Hws. by apply Hws.
Qed.

Lemma strip_padded (ws1 ws2 : str) (a c : ascii) (mid : str) :
  Forall (fun c => isspace c = true) ws1 →
  Forall (fun c => isspace c = true) ws2 →
  isspace a = false → isspace c = false →
  strip (ws1 ++ (a :: mid ++ [c]) ++ ws2) = a :: mid ++ [c].
Proof.
  intros Hws1 Hws2 Ha Hc. unfold strip.
  rewrite lstrip_app_ws by done.
  change ((a :: mid ++ [c]) ++ ws2) with (a :: ((mid ++ [c]) ++ ws2)).
  rewrite lstrip_nonspace by done.
  change (a :: ((mid ++ [c]) ++ ws2)) with ((a :: mid ++ [c]) ++ ws2).
  rewrite rstrip_app_ws by done.
  change (a :: mid ++ [c]) with ((a :: mid) ++ [c]).
  by apply rstrip_nonspace.
Qed.

(** ** Format normaliser: lists of loose terms *)

Lemma loose_term_shape (term : str * str) :
  well_formed_loose term →
  ∃ a mid, loose_term term = a :: mid ++ ["]"%char] ∧ isspace a = false.
Proof.
  destruct term as [coeff ops]. intros (Hne & Hws & _).
  unfold loose_term. simpl in *.
  destruct coeff as [|a coeff]; [done|]. inversion Hws; subst.
  exists a, (coeff ++ " [" ++ ops). split; [|done].
  simpl. f_equal. by rewrite <- !app_assoc.
Qed.

Lemma loose_term_no_plus (term : str * str) :
  well_formed_loose term → "+"%char ∉ loose_term term.
Proof.
  destruct term as [coeff ops]. intros (_ & _ & H1 & _ & H2).
  unfold loose_term. cbn [fst snd] in *. rewrite !not_elem_of_app.
  repeat split; try done; by apply contains_false.
Qed.

Lemma normalize_term_padded (ws1 ws2 : str) (term : str * str) :
  Forall (fun c => isspace c = true) ws1 →
  Forall (fun c => isspace c = true) ws2 →
  well_formed_loose term →
  normalize_term (ws1 ++ loose_term term ++ ws2)
  = Some (canonical_term (term.1, strip term.2)).
Proof.
  intros Hws1 Hws2 Hwf.
  destruct (loose_term_shape term Hwf) as (a & mid & Hshape & Ha).
  assert (Hstrip : strip (ws1 ++ loose_term term ++ ws2)
                   = strip (loose_term term)).
  { rewrite Hshape, strip_padded by done. symmetry. by apply strip_id. }
  destruct Hwf as (Hne & Hws & _ & Hops & _).
  unfold canonical_term. cbn [fst snd].
  rewrite <- (normalize_term_loose term.1 term.2) by done.
  unfold normalize_term, loose_term in *. by rewrite Hstrip.
Qed.

(** The pieces between the [+] signs of a list of loose terms joined by
    a [+] with white space around it, each normalised. *)
Lemma omap_normalize_joined (ws wsA wsB : str) (terms : list (str * str)) :
  terms ≠ [] → Forall (fun c => isspace c = true) ws →
  Forall (fun c => isspace c = true) wsA →
  Forall (fun c => isspace c = true) wsB →
  Forall well_formed_loose terms →
  omap normalize_term
    (split "+" (ws ++ join (wsA ++ "+"%char :: wsB) (map loose_term terms)))
  = map (fun term => canonical_term (term.1, strip term.2)) terms.
Proof.
  intros Hne Hws HwsA HwsB Hall. revert ws Hws.
  assert (Hspace : ∀ ws', Forall (fun c => isspace c = true) ws' →
                          "+"%char ∉ ws').
  { intros ws' Hws' Hin. rewrite Forall_forall in Hws'.
    by apply Hws' in Hin. }
  induction terms as [|term [|term' terms] IH]; intros ws Hws; [done|..].
  - inversion Hall as [|? ? Hwf _]; subst. cbn [map join].
    rewrite split_notin.
    + change (omap normalize_term [ws ++ loose_term term])
        with (match normalize_term (ws ++ loose_term term) with
              | Some y => [y]
              | None => []
              end).
      pose proof (normalize_term_padded ws [] term Hws ltac:(done) Hwf) as H.
      rewrite app_nil_r in H. by rewrite H.
    + rewrite not_elem_of_app. split; [auto|by apply loose_term_no_plus].
  - inversion Hall as [|? ? Hwf Hall']; subst.
    change (join (wsA ++ "+"%char :: wsB)
              (map loose_term (term :: term' :: terms)))
      with (loose_term term ++ (wsA ++ "+"%char :: wsB)
            ++ join (wsA ++ "+"%char :: wsB)
                 (map loose_term (term' :: terms))).
    replace (ws ++ loose_term term ++ (wsA ++ "+"%char :: wsB)
             ++ join (wsA ++ "+"%char :: wsB)
                  (map loose_term (term' :: terms)))
      with ((ws ++ loose_term term ++ wsA)
            ++ "+"%char
               :: (wsB ++ join (wsA ++ "+"%char :: wsB)
                            (map loose_term (term' :: terms)))).
    2: { by rewrite <- !app_assoc. }
    rewrite split_app_sep, omap_app, split_notin.
    + change (omap normalize_term [ws ++ loose_term term ++ wsA])
        with (match normalize_term (ws ++ loose_term term ++ wsA) with
              | Some y => [y]
              | None => []
              end).
      rewrite normalize_term_padded by done.
      by rewrite IH.
    + rewrite !not_elem_of_app. repeat split; auto.
      by apply loose_term_no_plus.
Qed.

Lemma omap_normalize_loose_terms (ws : str) (terms : list (str * str)) :
  terms ≠ [] → Forall (fun c => isspace c = true) ws →
  Forall well_formed_loose terms →
  omap normalize_term (split "+" (ws ++ join " + " (map loose_term terms)))
  = map (fun term => canonical_term (term.1, strip term.2)) terms.
Proof.
  intros Hne Hws Hall.
  by apply (omap_normalize_joined ws " " " "); try by repeat constructor.
Qed.

(** X10: a list of loose terms joined by [ + ] is normalised term by
    term: each coefficient is put in parentheses, each operator list is
    trimmed, and the terms are joined by the delimiter of the canonical
    form, in the same order. *)
Theorem normalize_data_format_loose_terms (terms : list (str * str)) :
  Forall well_formed_loose terms →
  normalize_data_format (join " + " (map loose_term terms))
  = join term_separator
      (map (fun term => canonical_term (term.1, strip term.2)) terms).
Proof.
  intros Hall. destruct terms as [|term terms]; [reflexivity|].
  unfold normalize_data_format.
  change (join " + " (map loose_term (term :: terms)))
    with ([] ++ join " + " (map loose_term (term :: terms))).
  by rewrite omap_normalize_loose_terms.
Qed.

Lemma normalize_data_format_loose_terms_witness :
  normalize_data_format "-0.5 [X0 Y1] + 2e3 [ Z2 ] + 1.5j []"
  = "(-0.5) [X0 Y1] +" ++ [newline] ++ "(2e3) [Z2] +" ++ [newline]
    ++ "(1.5j) []".
Proof.
  refine (normalize_data_format_loose_terms
            [("-0.5" : str, "X0 Y1" : str); ("2e3" : str, " Z2 " : str);
             ("1.5j" : str, "" : str)] _).
  repeat constructor; try done; try (by apply contains_false);
    by vm_compute.
Defined.

(** X11: text without an opening bracket holds no term for the
    normaliser: every piece is dropped and the result is empty. *)
Theorem normalize_data_format_no_bracket (data : str) :
  "["%char ∉ data → normalize_data_format data = [].
Proof.
  intros Hno. unfold normalize_data_format.
  rewrite omap_all_None; [done|].
  intros piece Hpiece. apply normalize_term_no_bracket.
  intros Hin. apply Hno. by eapply elem_of_split.
Qed.

Lemma normalize_data_format_no_bracket_witness :
  normalize_data_format "1.0 X0 Y1 + 2.0 Z2" = [].
Proof.
  apply normalize_data_format_no_bracket. by apply contains_false.
Defined.

(** ** Term parser: reading canonical text back *)

Lemma until_rparen_app (coeff rest : str) :
  ")"%char ∉ coeff → until_rparen (coeff ++ ")"%char :: rest) = Some (coeff, rest).
Proof.
  induction coeff as [|a coeff IH]; simpl; intros Hno; [done|].
  apply not_elem_of_cons in Hno as [Hne Hno].
  destruct (Ascii.eqb_spec a ")") as [|_]; [done|]. by rewrite IH.
Qed.

Lemma match_canonical_term_app (term : str * str) (rest : str) :
  well_formed_canonical term →
  match_canonical_term (canonical_term term ++ rest)
  = Some (term.1, term.2, rest).
Proof.
  destruct term as [coeff ops]. intros (Hne & Hcoeff & Hops).
  unfold match_canonical_term, canonical_term. cbn [fst snd] in *.
  change (("(" ++ coeff ++ ") [" ++ ops ++ "]") ++ rest)
    with ("("%char :: (coeff ++ ") [" ++ ops ++ "]") ++ rest).
  rewrite expect_cons, bind_Some.
  replace ((coeff ++ ") [" ++ ops ++ "]") ++ rest)
    with (coeff ++ ")"%char :: (" [" ++ ops ++ "]"%char :: rest)).
  2: { rewrite <- !app_assoc. reflexivity. }
  rewrite until_rparen_app, bind_Some by done.
  destruct coeff as [|a coeff]; [done|].
  unfold bracketed. simpl. by rewrite lazy_dot_until_app.
Qed.

Lemma findall_from_0_cons (a : ascii) (s : str) :
  findall_from 0 (a :: s)
  = match match_canonical_term (a :: s) with
    | Some (coeff, ops, rest) =>
        (coeff, ops) :: findall_from (length (a :: s) - length rest - 1) s
    | None => findall_from 0 s
    end.
Proof. reflexivity. Qed.

Lemma findall_from_skip (pre rest : str) :
  findall_from (length pre) (pre ++ rest) = findall_from 0 rest.
Proof. induction pre as [|a pre IH]; [done|]. exact IH. Qed.

Lemma findall_from_0_other (a : ascii) (s : str) :
  a ≠ "("%char → findall_from 0 (a :: s) = findall_from 0 s.
Proof.
  intros Hne. rewrite findall_from_0_cons.
  unfold match_canonical_term. by rewrite expect_other.
Qed.

Lemma findall_from_0_canonical (term : str * str) (rest : str) :
  well_formed_canonical term →
  findall_from 0 (canonical_term term ++ rest)
  = term :: findall_from 0 rest.
Proof.
  intros Hwf. pose proof (match_canonical_term_app term rest Hwf) as Hm.
  destruct term as [coeff ops]. unfold canonical_term in *. cbn [fst snd] in *.
  change (("(" ++ coeff ++ ") [" ++ ops ++ "]") ++ rest)
    with ("("%char :: ((coeff ++ ") [" ++ ops ++ "]") ++ rest)) in *.
  rewrite findall_from_0_cons, Hm. f_equal.
  replace (length ("("%char :: (coeff ++ ") [" ++ ops ++ "]") ++ rest)
           - length rest - 1)
    with (length (coeff ++ ") [" ++ ops ++ "]")).
  - apply findall_from_skip.
  - simpl. rewrite !length_app. lia.
Qed.

(** The term parser finds in a canonical rendering exactly the terms
    rendered, in order. *)
Lemma findall_canonical_rendering (terms : list (str * str)) :
  Forall well_formed_canonical terms →
  findall_canonical_terms (join term_separator (map canonical_term terms))
  = terms.
Proof.
  unfold findall_canonical_terms.
  induction terms as [|term [|term' terms] IH]; intros Hall; [done|..].
  - inversion Hall; subst. cbn [map join].
    rewrite <- (app_nil_r (canonical_term term)).
    by rewrite findall_from_0_canonical.
  - inversion Hall as [|? ? Hwf Hall']; subst.
    change (join term_separator (map canonical_term (term :: term' :: terms)))
      with (canonical_term term
            ++ " "%char :: "+"%char :: newline
               :: join term_separator (map canonical_term (term' :: terms))).
    rewrite findall_from_0_canonical by done.
    rewrite !findall_from_0_other by done.
    by rewrite IH.
Qed.

(** X12: round trip through the canonical form.  The term parser
    applied to terms written in canonical form and joined by the
    delimiter, given as text or as bytes that decode to it, returns one
    entry per term, in order, holding the operator map of the term's
    operator list and the value [complex] gives for its coefficient,
    provided no operator token names its index with more digits than
    [int] accepts. *)
Theorem parse_canonical_rendering {C : Type} (complex : str → option C)
  (max_str_digits : nat) (decode : list Byte.byte → option str)
  (data : pydata) (terms : list (str * str)) (values : list C) :
  decode_data decode data
  = Ok (join term_separator (map canonical_term terms)) →
  Forall well_formed_canonical terms →
  Forall (fun term => operators_within_limit max_str_digits term.2 = true)
    terms →
  Forall2 (fun term value => complex (strip term.1) = Some value)
    terms values →
  parse_hamiltonian_to_sparsepauliop complex max_str_digits decode data
  = Ok (zip_with (fun term value => (parse_operators term.2, value))
          terms values).
Proof.
  intros Hdata Hwf Hlimit Hvalues. unfold parse_hamiltonian_to_sparsepauliop.
  rewrite Hdata. cbn [bind].
  rewrite findall_canonical_rendering by done. clear Hwf Hdata.
  induction Hvalues as [|term value terms values Hv _ IH]; [done|].
  inversion Hlimit as [|? ? Hterm Hterms]; subst.
  cbn [parse_terms zip_with].
  by rewrite parse_term_cases, Hv, Hterm, IH.
Qed.

Lemma parse_canonical_rendering_witness :
  parse_hamiltonian_to_sparsepauliop float_of_integer 4300 decode_utf8
    (Text ("(2) [X0 Z2] +" ++ [newline] ++ "( -3 ) []"))
  = Ok [({[0%Z := "X"%char; 2%Z := "Z"%char]}, 2%Z); (∅, (-3)%Z)].
Proof.
  refine (parse_canonical_rendering float_of_integer 4300 decode_utf8
            (Text ("(2) [X0 Z2] +" ++ [newline] ++ "( -3 ) []"))
            [("2" : str, "X0 Z2" : str); (" -3 " : str, "" : str)]
            [2%Z; (-3)%Z] _ _ _ _).
  - reflexivity.
  - repeat constructor; try done; try (by apply contains_false);
      by vm_compute.
  - by repeat constructor.
  - by repeat constructor.
Defined.

(** X13: the normaliser feeds the term parser.  In the normalised form
    of a list of loose terms whose coefficients hold no closing
    parenthesis, the term parser finds every term, in order, with its
    coefficient and its trimmed operator list. *)
Theorem findall_normalized_loose_terms (terms : list (str * str)) :
  Forall well_formed_loose terms →
  Forall (fun term => ")"%char ∉ term.1) terms →
  findall_canonical_terms
    (normalize_data_format (join " + " (map loose_term terms)))
  = map (fun term => (term.1, strip term.2)) terms.
Proof.
  intros Hloose Hparen.
  assert (Hnorm : normalize_data_format (join " + " (map loose_term terms))
                  = join term_separator
                      (map canonical_term
                         (map (fun term => (term.1, strip term.2)) terms))).
  { destruct terms as [|term terms]; [reflexivity|].
    unfold normalize_data_format.
    change (join " + " (map loose_term (term :: terms)))
      with ([] ++ join " + " (map loose_term (term :: terms))).
    rewrite omap_normalize_loose_terms by done. by rewrite map_map. }
  rewrite Hnorm. apply findall_canonical_rendering.
  apply Forall_fmap, Forall_forall. intros [coeff ops] Hin.
  rewrite Forall_forall in Hloose, Hparen.
  destruct (Hloose _ Hin) as (Hne & _ & _ & Hops & _).
  specialize (Hparen _ Hin). cbn [fst snd] in *.
  repeat split; try done.
  apply Forall_forall. intros a Ha%elem_of_strip.
  rewrite Forall_forall in Hops. by apply Hops.
Qed.

Lemma findall_normalized_loose_terms_witness :
  findall_canonical_terms
    (normalize_data_format "1.0 [X0 Y1] + 2.0 [ Z2 ]")
  = [("1.0", "X0 Y1"); ("2.0", "Z2")].
Proof.
  refine (findall_normalized_loose_terms
            [("1.0" : str, "X0 Y1" : str); ("2.0" : str, " Z2 " : str)] _ _).
  - repeat constructor; try done; try (by apply contains_false);
      by vm_compute.
  - repeat constructor; by apply contains_false.
Defined.

(** ** Format detector: where a canonical term may stand *)

Lemma search_detector_cons (a : ascii) (s : str) :
  search_detector (a :: s)
  = bool_decide (is_Some (match_detector (a :: s))) || search_detector s.
Proof. reflexivity. Qed.

Lemma search_detector_app (pre s : str) :
  search_detector s = true → search_detector (pre ++ s) = true.
Proof.
  intros Hs. induction pre as [|a pre IH]; [done|].
  change ((a :: pre) ++ s) with (a :: (pre ++ s)).
  rewrite search_detector_cons, IH. apply orb_true_r.
Qed.

(** The detector accepts, at its head, a canonical term whose
    coefficient is a run of digits. *)
Lemma match_detector_integer (int body rest : str) :
  int ≠ [] → forallb isdigit int = true →
  Forall (fun a => a ≠ "]"%char ∧ a ≠ newline) body →
  match_detector ("(" ++ int ++ ") [" ++ body ++ "]" ++ rest)
  = Some (body, rest).
Proof.
  intros Hi1 Hi2 Hbody. unfold match_detector.
  change ("(" ++ int ++ ") [" ++ body ++ "]" ++ rest)
    with ("("%char :: int ++ ")"%char :: " "%char :: "["%char
          :: body ++ "]"%char :: rest).
  rewrite expect_cons, bind_Some.
  destruct int as [|d int]; [done|].
  assert (Hd : isdigit d = true) by (simpl in Hi2; by destruct (isdigit d)).
  change ((d :: int) ++ ?x) with (d :: (int ++ x)).
  rewrite lstrip_nonspace by by apply isdigit_not_space.
  assert (optional "-" (d :: int ++ ")"%char :: " "%char :: "["%char
                        :: body ++ "]"%char :: rest)
          = (d :: int) ++ ")"%char :: " "%char :: "["%char
            :: body ++ "]"%char :: rest) as ->.
  { unfold optional. rewrite expect_other; [done|].
    intros ->. by vm_compute in Hd. }
  rewrite digits1_app, bind_Some by done.
  simpl. unfold bracketed. simpl.
  by rewrite lazy_dot_until_app.
Qed.

(** X14: one canonical term with a plain coefficient (digits, or
    digits, a point and digits) anywhere in a blob is enough for the
    detector to report the whole blob as canonical, whatever stands
    before and after it: a blob that mixes such a term with loose terms
    is reported as needing no normalisation. *)
Theorem needs_normalization_term_anywhere (before after int frac body : str) :
  int ≠ [] → forallb isdigit int = true →
  frac ≠ [] → forallb isdigit frac = true →
  Forall (fun a => a ≠ "]"%char ∧ a ≠ newline) body →
  needs_normalization
    (before ++ "(" ++ int ++ ") [" ++ body ++ "]" ++ after) = "No"
  ∧ needs_normalization
      (before ++ "(" ++ int ++ "." ++ frac ++ ") [" ++ body ++ "]" ++ after)
    = "No".
Proof.
  intros Hi1 Hi2 Hf1 Hf2 Hbody.
  split; apply needs_normalization_No, search_detector_app,
    search_detector_head.
  - rewrite match_detector_integer by done. by eexists.
  - rewrite match_detector_decimal by done. by eexists.
Qed.

Lemma needs_normalization_term_anywhere_witness :
  needs_normalization "0.5 [X0] + (2) [Z1] + 1e3 [Y2]" = "No"
  ∧ needs_normalization "0.5 [X0] + (2.25) [Z1] + 1e3 [Y2]" = "No".
Proof.
  refine (needs_normalization_term_anywhere
            "0.5 [X0] + " " + 1e3 [Y2]" "2" "25" "Z1" _ _ _ _ _);
    try done.
  repeat constructor; by vm_compute.
Defined.

Lemma match_detector_head (s : str) :
  is_Some (match_detector s) → ∃ s', s = "("%char :: s'.
Proof.
  unfold match_detector. intros [r Hr].
  destruct (expect "(" s) as [s'|] eqn:E; [|done].
  apply expect_Some in E. eauto.
Qed.

(** X15: text without an opening parenthesis, the empty text included,
    is always reported as needing normalisation. *)
Theorem needs_normalization_no_parenthesis (data : str) :
  "("%char ∉ data → needs_normalization data = "Yes".
Proof.
  intros Hno. unfold needs_normalization.
  assert (search_detector data = false) as ->; [|done].
  induction data as [|a data IH]; [done|].
  apply not_elem_of_cons in Hno as [Hne Hno].
  rewrite search_detector_cons, IH by done. rewrite orb_false_r.
  apply bool_decide_eq_false_2. intros [s' [= ->]]%match_detector_head.
  done.
Qed.

Lemma needs_normalization_no_parenthesis_witness :
  needs_normalization "1.0 [X0 Y1] + 2.0 [Z2]" = "Yes".
Proof.
  apply needs_normalization_no_parenthesis. by apply contains_false.
Defined.

(** ** Term parser: text without terms *)

Lemma until_rparen_Some (s body rest : str) :
  until_rparen s = Some (body, rest) → s = body ++ ")"%char :: rest.
Proof.
  revert body. induction s as [|a s IH]; intros body; simpl; [done|].
  destruct (Ascii.eqb_spec a ")") as [->|_]; [by intros [= <- <-]|].
  destruct (until_rparen s) as [[b r]|]; simpl; [|done].
  intros [= <- <-]. simpl. f_equal. by apply IH.
Qed.

Lemma lazy_dot_until_Some (c : ascii) (s body rest : str) :
  lazy_dot_until c s = Some (body, rest) → s = body ++ c :: rest.
Proof.
  revert body. induction s as [|a s IH]; intros body; simpl; [done|].
  destruct (Ascii.eqb_spec a c) as [->|_]; [by intros [= <- <-]|].
  destruct (Ascii.eqb a newline); [done|].
  destruct (lazy_dot_until c s) as [[b r]|]; simpl; [|done].
  intros [= <- <-]. simpl. f_equal. by apply IH.
Qed.

Lemma bracketed_Some (s body rest : str) :
  bracketed s = Some (body, rest) →
  ∃ ws, s = ws ++ "["%char :: body ++ "]"%char :: rest.
Proof.
  unfold bracketed. destruct (lstrip_suffix s) as [ws Hs].
  destruct (expect "[" (lstrip s)) as [s'|] eqn:E; simpl; [|done].
  apply expect_Some in E. intros H%lazy_dot_until_Some.
  exists ws. by rewrite Hs at 1; rewrite E, H.
Qed.

(** A match of the canonical pattern at the head of [s] shows the four
    delimiters in [s]. *)
Lemma match_canonical_term_Some (s coeff ops rest : str) :
  match_canonical_term s = Some (coeff, ops, rest) →
  ∃ ws, s = "(" ++ coeff ++ ")" ++ ws ++ "[" ++ ops ++ "]" ++ rest.
Proof.
  unfold match_canonical_term.
  destruct (expect "(" s) as [s1|] eqn:E1; simpl; [|done].
  apply expect_Some in E1 as ->.
  destruct (until_rparen s1) as [[c s2]|] eqn:E2; simpl; [|done].
  apply until_rparen_Some in E2 as ->.
  destruct c as [|a c]; [done|].
  destruct (bracketed s2) as [[o r]|] eqn:E3; simpl; [|done].
  apply bracketed_Some in E3 as [ws ->]. intros [= <- <- <-].
  by exists ws.
Qed.

Lemma findall_from_no_match (skip : nat) (s : str) :
  (∀ pre t, s = pre ++ t → match_canonical_term t = None) →
  findall_from skip s = [].
Proof.
  revert skip. induction s as [|a s IH]; intros skip Hnone; [done|].
  assert (Htail : ∀ pre t, s = pre ++ t → match_canonical_term t = None).
  { intros pre t ->. by apply (Hnone (a :: pre)). }
  destruct skip as [|k]; [|by apply IH].
  rewrite findall_from_0_cons, (Hnone [] (a :: s)) by done. by apply IH.
Qed.

(** X16: text in which one of the four delimiters of a canonical term
    is missing holds no term for the term parser, which returns the
    empty list and raises no error, for text and for bytes that decode
    to such text.  Text in the loose form, which has no parenthesis, is
    such a text. *)
Theorem parse_without_delimiter {C : Type} (complex : str → option C)
  (max_str_digits : nat) (decode : list Byte.byte → option str)
  (input : pydata) (data : str) (delimiter : ascii) :
  decode_data decode input = Ok data →
  delimiter ∈ ["("%char; ")"%char; "["%char; "]"%char] →
  delimiter ∉ data →
  parse_hamiltonian_to_sparsepauliop complex max_str_digits decode input
  = Ok [].
Proof.
  intros Hdata Hdelim Hno. unfold parse_hamiltonian_to_sparsepauliop.
  rewrite Hdata. cbn [bind].
  unfold findall_canonical_terms. rewrite findall_from_no_match; [done|].
  intros pre t -> . destruct (match_canonical_term t) as [[[coeff ops] rest]|]
    eqn:E; [|done].
  exfalso. apply Hno. apply match_canonical_term_Some in E as [ws ->].
  rewrite !elem_of_app.
  repeat (apply elem_of_cons in Hdelim as [->|Hdelim]).
  - right. left. by apply contains_true.
  - do 3 right. left. by apply contains_true.
  - do 5 right. left. by apply contains_true.
  - do 7 right. left. by apply contains_true.
  - inversion Hdelim.
Qed.

Lemma parse_without_delimiter_witness :
  parse_hamiltonian_to_sparsepauliop float_of_integer 4300 decode_utf8
    (Text "x [X0 Y1] + y [Z2]")
  = Ok [].
Proof.
  refine (parse_without_delimiter float_of_integer 4300 decode_utf8
            (Text "x [X0 Y1] + y [Z2]") "x [X0 Y1] + y [Z2]" "(" _ _ _).
  - reflexivity.
  - left.
  - by apply contains_false.
Defined.

(** ** Variable-range aggregator: errors and empty datasets *)

Section AggregatorMore.
Context {F : Type} (float : str → option F) (float_lt : F → F → bool).
Context (h5_keys : str → option (list str)).

Lemma scan_entries_app (results : Dict.t (Dict.t (list str)))
  (before after : list str) :
  scan_entries h5_keys results (before ++ after)
  = let* results := scan_entries h5_keys results before in
    scan_entries h5_keys results after.
Proof.
  revert results. induction before as [|entry before IH]; intros results.
  - done.
  - simpl. destruct (scan_entry h5_keys results entry); simpl; [|done].
    apply IH.
Qed.

Lemma scan_entries_cons (results : Dict.t (Dict.t (list str)))
  (entry : str) (file_input : list str) :
  scan_entries h5_keys results (entry :: file_input)
  = let* results := scan_entry h5_keys results entry in
    scan_entries h5_keys results file_input.
Proof. reflexivity. Qed.

Lemma scan_entry_no_colon (results : Dict.t (Dict.t (list str)))
  (entry : str) :
  ":"%char ∉ entry → scan_entry h5_keys results entry = Raise IndexError.
Proof.
  intros Hno. unfold scan_entry.
  change (list_ascii_of_string ":") with [":"%char].
  by rewrite (split_notin ":" entry).
Qed.

Lemma split_three (c : ascii) (s1 s2 s3 : str) :
  c ∉ s1 → c ∉ s2 → c ∉ s3 →
  split c (s1 ++ c :: s2 ++ c :: s3) = [s1; s2; s3].
Proof.
  intros H1 H2 H3. rewrite split_app by done. f_equal.
  rewrite split_app by done. f_equal. by apply split_notin.
Qed.

Lemma scan_entry_bad_constraint (results : Dict.t (Dict.t (list str)))
  (function_name file_path fixed : str) :
  ":"%char ∉ function_name → ":"%char ∉ file_path → ":"%char ∉ fixed →
  length (split "=" fixed) ≠ 2 →
  scan_entry h5_keys results
    (function_name ++ ":" ++ file_path ++ ":" ++ fixed)
  = Raise ValueError.
Proof.
  intros H1 H2 H3 Hlen. unfold scan_entry.
  change (split ":" (function_name ++ ":" ++ file_path ++ ":" ++ fixed))
    with (split ":" (function_name ++ ":"%char :: file_path
                     ++ ":"%char :: fixed)).
  rewrite split_three by done.
  by destruct (split "=" fixed) as [|a [|b [|c l]]].
Qed.

Lemma elem_of_instance_name_of (item : str) (c : ascii) :
  c ∈ instance_name_of item → c ∈ item.
Proof.
  unfold instance_name_of. destruct (contains ":" item); [|done].
  pose proof (split_nonempty ":" item) as Hne.
  destruct (split ":" item) as [|piece pieces] eqn:E; [done|]. simpl.
  apply (elem_of_split ":" item). rewrite E. left.
Qed.

Lemma scan_item_unfold (fixed : option (str * str))
  (variable_values : Dict.t (list str)) (item : str) :
  scan_item fixed variable_values item
  = if selects fixed item
    then foldl add_value variable_values
           (parse_instance_variables (instance_name_of item))
    else variable_values.
Proof. by destruct fixed as [[fixed_variable fixed_value]|]. Qed.

Lemma scan_item_no_hyphen (fixed : option (str * str))
  (variable_values : Dict.t (list str)) (item : str) :
  "-"%char ∉ item → scan_item fixed variable_values item = variable_values.
Proof.
  intros Hno. rewrite scan_item_unfold.
  assert (parse_instance_variables (instance_name_of item) = []) as ->.
  { unfold parse_instance_variables. apply foldl_parse_instance_part_plain.
    intros part Hpart Hin. apply Hno, elem_of_instance_name_of.
    by eapply elem_of_split. }
  by destruct (selects fixed item).
Qed.

Lemma scan_entry_no_variables (results : Dict.t (Dict.t (list str)))
  (function_name file_path : str) (items : list str) :
  ":"%char ∉ function_name → ":"%char ∉ file_path →
  h5_keys file_path = Some items →
  Forall (fun item => "-"%char ∉ item) items →
  scan_entry h5_keys results (function_name ++ ":" ++ file_path)
  = Ok results.
Proof.
  intros H1 H2 Hkeys Hitems. unfold scan_entry.
  change (split ":" (function_name ++ ":" ++ file_path))
    with (split ":" (function_name ++ ":"%char :: file_path)).
  rewrite split_app, split_notin by done. simpl. rewrite Hkeys.
  assert (foldl (scan_item None) [] items = []) as ->; [|done].
  clear Hkeys. generalize ([] : Dict.t (list str)).
  induction Hitems as [|item items Hitem _ IH]; intros vv; simpl; [done|].
  rewrite IH. by rewrite scan_item_no_hyphen.
Qed.
End AggregatorMore.

(** X17: an entry of the input without any colon makes the aggregator
    raise [IndexError]; whatever the entries before it gave is lost:
    nothing is printed and nothing returned. *)
Theorem extract_variable_ranges_entry_without_colon {F : Type}
  (float : str → option F) (float_lt : F → F → bool)
  (h5_keys : str → option (list str)) (before after : list str)
  (entry : str) (results : Dict.t (Dict.t (list str))) :
  scan_entries h5_keys [] before = Ok results →
  ":"%char ∉ entry →
  extract_variable_ranges float float_lt h5_keys (before ++ entry :: after)
  = Raise IndexError.
Proof.
  intros Hbefore Hno. unfold extract_variable_ranges.
  rewrite scan_entries_app, Hbefore. cbn [bind].
  by rewrite scan_entries_cons, scan_entry_no_colon.
Qed.

Lemma extract_variable_ranges_entry_without_colon_witness :
  extract_variable_ranges float_of_integer Z.ltb example_store
    ["a:a.hdf5"; "tfim"; "a:a.hdf5"]
  = Raise IndexError.
Proof.
  refine (extract_variable_ranges_entry_without_colon float_of_integer Z.ltb
            example_store ["a:a.hdf5"] ["a:a.hdf5"] "tfim"
            [("a", [("size", ["2"; "4"]); ("graph", ["ring"])])] _ _).
  - by vm_compute.
  - by apply contains_false.
Defined.

(** X18: a constraint that does not split at [=] into exactly two parts
    makes the aggregator raise [ValueError], and it does so before the
    file of the entry is opened: the error is the same whether or not
    the file exists. *)
Theorem extract_variable_ranges_bad_constraint {F : Type}
  (float : str → option F) (float_lt : F → F → bool)
  (h5_keys : str → option (list str)) (before after : list str)
  (function_name file_path fixed : str)
  (results : Dict.t (Dict.t (list str))) :
  scan_entries h5_keys [] before = Ok results →
  ":"%char ∉ function_name → ":"%char ∉ file_path → ":"%char ∉ fixed →
  length (split "=" fixed) ≠ 2 →
  extract_variable_ranges float float_lt h5_keys
    (before ++ (function_name ++ ":" ++ file_path ++ ":" ++ fixed) :: after)
  = Raise ValueError.
Proof.
  intros Hbefore H1 H2 H3 Hlen. unfold extract_variable_ranges.
  rewrite scan_entries_app, Hbefore. cbn [bind].
  by rewrite scan_entries_cons, scan_entry_bad_constraint.
Qed.

Lemma extract_variable_ranges_bad_constraint_witness :
  extract_variable_ranges float_of_integer Z.ltb example_store
    ["a:missing.hdf5:graph"]
  = Raise ValueError
  ∧ extract_variable_ranges float_of_integer Z.ltb example_store
      ["a:a.hdf5:graph=ring=2"]
    = Raise ValueError.
Proof.
  split.
  - refine (extract_variable_ranges_bad_constraint float_of_integer Z.ltb
              example_store [] [] "a" "missing.hdf5" "graph" [] _ _ _ _ _);
      try done; by apply contains_false.
  - refine (extract_variable_ranges_bad_constraint float_of_integer Z.ltb
              example_store [] [] "a" "a.hdf5" "graph=ring=2" [] _ _ _ _ _);
      try done; by apply contains_false.
Defined.

(** X19: a dataset whose record names carry no variable (no key of its
    file has a hyphen) leaves no trace: the aggregator prints and does
    what it would without that entry, and raises no error. *)
Theorem extract_variable_ranges_no_variables {F : Type}
  (float : str → option F) (float_lt : F → F → bool)
  (h5_keys : str → option (list str)) (before after : list str)
  (function_name file_path : str) (items : list str) :
  ":"%char ∉ function_name → ":"%char ∉ file_path →
  h5_keys file_path = Some items →
  Forall (fun item => "-"%char ∉ item) items →
  extract_variable_ranges float float_lt h5_keys
    (before ++ (function_name ++ ":" ++ file_path) :: after)
  = extract_variable_ranges float float_lt h5_keys (before ++ after).
Proof.
  intros H1 H2 Hkeys Hitems. unfold extract_variable_ranges.
  rewrite !scan_entries_app.
  destruct (scan_entries h5_keys [] before) as [results|e]; cbn [bind];
    [|done].
  by rewrite scan_entries_cons,
    (scan_entry_no_variables h5_keys results function_name file_path items).
Qed.

Lemma extract_variable_ranges_no_variables_witness :
  extract_variable_ranges float_of_integer Z.ltb example_plain_store
    ["a:a.hdf5"; "b:b.hdf5"]
  = extract_variable_ranges float_of_integer Z.ltb example_plain_store
      ["a:a.hdf5"].
Proof.
  refine (extract_variable_ranges_no_variables float_of_integer Z.ltb
            example_plain_store ["a:a.hdf5"] [] "b" "b.hdf5" ["ham1"; "ham2"]
            _ _ _ _).
  - by apply contains_false.
  - by apply contains_false.
  - reflexivity.
  - repeat constructor; by apply contains_false.
Defined.

(** ** Variable-range aggregator: which values are reported *)

Lemma reported_nil (var val : str) : ¬ reported [] var val.
Proof. by intros (values & H & _). Qed.

Lemma add_value_reported (variable_values : Dict.t (list str))
  (item : str * str) (var val : str) :
  reported (add_value variable_values item) var val ↔
  reported variable_values var val ∨ item = (var, val).
Proof.
  split.
  - destruct item as [var' val']. unfold reported, add_value.
    destruct (decide (var' = var)) as [->|Hne].
    + rewrite dict_get_set_eq. intros (values & [= <-] & Hin).
      destruct (Dict.get variable_values var) as [old|] eqn:E; simpl in *.
      * case_decide; [left; eauto|].
        apply elem_of_app in Hin as [Hin|Hin];
          [left; eauto|].
        apply list_elem_of_singleton in Hin as ->. by right.
      * apply list_elem_of_singleton in Hin as ->. by right.
    + rewrite dict_get_set_ne by done. by left.
  - intros [(values & Hget & Hin)|Heq].
    + by eapply add_value_keeps.
    + subst item. apply add_value_adds.
Qed.

Lemma foldl_add_value_reported (variables : Dict.t str)
  (variable_values : Dict.t (list str)) (var val : str) :
  reported (foldl add_value variable_values variables) var val ↔
  reported variable_values var val ∨ (var, val) ∈ variables.
Proof.
  revert variable_values.
  induction variables as [|item variables IH]; intros vv; simpl.
  - split; [by left|]. intros [?|H]; [done|inversion H].
  - rewrite IH, add_value_reported, elem_of_cons.
    split; [intros [[?|?]|?]|intros [?|[?|?]]]; subst; auto.
Qed.

Lemma foldl_scan_item_reported (fixed : option (str * str))
  (items : list str) (variable_values : Dict.t (list str)) (var val : str) :
  reported (foldl (scan_item fixed) variable_values items) var val ↔
  reported variable_values var val
  ∨ ∃ item, item ∈ items ∧ selects fixed item = true
            ∧ (var, val) ∈ parse_instance_variables (instance_name_of item).
Proof.
  revert variable_values.
  induction items as [|item items IH]; intros vv; simpl.
  - split; [by left|]. intros [?|(item & H & _)]; [done|inversion H].
  - rewrite IH, scan_item_unfold.
    destruct (selects fixed item) eqn:E.
    + rewrite foldl_add_value_reported. split.
      * intros [[?|?]|(item' & ? & ? & ?)]; [by left|right..].
        -- exists item. split; [left|done].
        -- exists item'. split; [by right|done].
      * intros [?|(item' & [->|?]%elem_of_cons & ? & ?)].
        -- left. by left.
        -- left. by right.
        -- right. by exists item'.
    + split.
      * intros [?|(item' & ? & ? & ?)]; [by left|right].
        exists item'. split; [by right|done].
      * intros [?|(item' & [->|?]%elem_of_cons & ? & ?)].
        -- by left.
        -- congruence.
        -- right. by exists item'.
Qed.

(** X20: the values collected for a dataset are exactly those of the
    records the constraint selects: a value is recorded for a variable
    if and only if some key of the file passes the test of the
    constraint and its name carries that variable with that value.  No
    value of a record that the constraint rejects is ever reported. *)
Theorem scan_items_reported (fixed : option (str * str)) (items : list str)
  (var val : str) :
  reported (foldl (scan_item fixed) [] items) var val ↔
  ∃ item, item ∈ items ∧ selects fixed item = true
          ∧ (var, val) ∈ parse_instance_variables (instance_name_of item).
Proof.
  rewrite foldl_scan_item_reported. split; [|by right].
  intros [H|H]; [by apply reported_nil in H|done].
Qed.

Lemma scan_items_reported_witness :
  reported (foldl (scan_item (Some ("graph", "ring"))) []
              ["a_size-2"; "a_size-4"; "a_graph-ring_size-2:attrs"])
    "size" "2"
  ∧ ¬ reported (foldl (scan_item (Some ("graph", "ring"))) []
                  ["a_size-2"; "a_size-4"; "a_graph-ring_size-2:attrs"])
        "size" "4".
Proof.
  split.
  - apply (proj2 (scan_items_reported _ _ _ _)).
    exists (list_ascii_of_string "a_graph-ring_size-2:attrs").
    split; [|split].
    + apply (bool_decide_unpack _). by vm_compute.
    + reflexivity.
    + apply (bool_decide_unpack _). by vm_compute.
  - intros (item & Hin & Hsel & Hval)%scan_items_reported.
    repeat (apply elem_of_cons in Hin as [->|Hin]);
      [by vm_compute in Hsel..| |inversion Hin].
    apply (bool_decide_pack _) in Hval. by vm_compute in Hval.
Defined.

(** ** Variable-range aggregator: no value twice *)

Lemma dict_set_Forall {V} (P : str * V → Prop) (d : Dict.t V) (k : str)
  (v : V) :
  Forall P d → P (k, v) → Forall P (Dict.set d k v).
Proof.
  intros Hd Hkv. induction Hd as [|[k' v'] d Hk' Hd IH]; simpl.
  - by repeat constructor.
  - destruct (decide (k' = k)); by constructor.
Qed.

Lemma add_value_NoDup (variable_values : Dict.t (list str))
  (item : str * str) :
  Forall (fun entry => NoDup entry.2) variable_values →
  Forall (fun entry => NoDup entry.2) (add_value variable_values item).
Proof.
  intros Hvv. destruct item as [var val]. unfold add_value.
  apply dict_set_Forall; [done|]. simpl.
  assert (Hold : NoDup (default [] (Dict.get variable_values var))).
  { destruct (Dict.get variable_values var) as [values|] eqn:E; simpl.
    - apply dict_get_elem in E. rewrite Forall_forall in Hvv.
      by apply (Hvv (var, values)).
    - constructor. }
  case_decide as Hin; [done|].
  apply NoDup_app. split; [done|]. split; [|by apply NoDup_singleton].
  intros x Hx ->%list_elem_of_singleton. done.
Qed.

Lemma scan_item_NoDup (fixed : option (str * str))
  (variable_values : Dict.t (list str)) (item : str) :
  Forall (fun entry => NoDup entry.2) variable_values →
  Forall (fun entry => NoDup entry.2) (scan_item fixed variable_values item).
Proof.
  intros Hvv. rewrite scan_item_unfold.
  destruct (selects fixed item); [|done].
  revert variable_values Hvv.
  induction (parse_instance_variables (instance_name_of item))
    as [|entry variables IH]; intros vv Hvv; simpl; [done|].
  by apply IH, add_value_NoDup.
Qed.

Lemma foldl_scan_item_NoDup (fixed : option (str * str)) (items : list str)
  (variable_values : Dict.t (list str)) :
  Forall (fun entry => NoDup entry.2) variable_values →
  Forall (fun entry => NoDup entry.2)
    (foldl (scan_item fixed) variable_values items).
Proof.
  revert variable_values.
  induction items as [|item items IH]; intros vv Hvv; simpl; [done|].
  by apply IH, scan_item_NoDup.
Qed.

Lemma scan_entry_NoDup (h5_keys : str → option (list str))
  (results results' : Dict.t (Dict.t (list str))) (entry : str) :
  Forall (fun dataset => Forall (fun entry => NoDup entry.2) dataset.2)
    results →
  scan_entry h5_keys results entry = Ok results' →
  Forall (fun dataset => Forall (fun entry => NoDup entry.2) dataset.2)
    results'.
Proof.
  intros Hres. unfold scan_entry.
  destruct (split ":" entry) as [|function_name [|file_path rest]];
    [done..|].
  destruct (match rest with
            | [] => Ok None
            | fixed_var_value :: _ =>
                match split "=" fixed_var_value with
                | [fixed_variable; fixed_value] =>
                    Ok (Some (fixed_variable, fixed_value))
                | _ => Raise ValueError
                end
            end) as [fixed|e]; simpl; [|done].
  destruct (h5_keys file_path) as [items|]; [|done].
  pose proof (foldl_scan_item_NoDup fixed items [] ltac:(constructor)) as Hvv.
  destruct (foldl (scan_item fixed) [] items) as [|e vv] eqn:E.
  - by intros [= <-].
  - intros [= <-]. by apply dict_set_Forall.
Qed.

Lemma scan_entries_NoDup (h5_keys : str → option (list str))
  (file_input : list str) (results results' : Dict.t (Dict.t (list str))) :
  Forall (fun dataset => Forall (fun entry => NoDup entry.2) dataset.2)
    results →
  scan_entries h5_keys results file_input = Ok results' →
  Forall (fun dataset => Forall (fun entry => NoDup entry.2) dataset.2)
    results'.
Proof.
  revert results.
  induction file_input as [|entry file_input IH]; intros results Hres; simpl.
  - by intros [= <-].
  - destruct (scan_entry h5_keys results entry) as [r|e] eqn:E; simpl;
      [|done].
    apply IH. by eapply scan_entry_NoDup.
Qed.

(** X21: no value is printed twice for a variable: in every report the
    list of values of each variable of each dataset is free of
    duplicates, however often a value occurs among the record names. *)
Theorem extract_variable_ranges_NoDup {F : Type}
  (float : str → option F) (float_lt : F → F → bool)
  (h5_keys : str → option (list str)) (file_input : list str) (o : outcome) :
  extract_variable_ranges float float_lt h5_keys file_input = Ok o →
  Forall (fun dataset => Forall (fun entry => NoDup entry.2) dataset.2)
    (printed o).
Proof.
  unfold extract_variable_ranges.
  destruct (scan_entries h5_keys [] file_input) as [results|e] eqn:E;
    simpl; [|done].
  intros [= <-]. simpl.
  apply scan_entries_NoDup in E; [|constructor].
  unfold print_results. apply Forall_fmap.
  eapply Forall_impl; [exact E|]. intros [function_name variables] Hvars.
  simpl in *. apply Forall_fmap.
  eapply Forall_impl; [exact Hvars|]. intros [var values] Hvalues.
  simpl in *. by rewrite sorted_Permutation.
Qed.

Lemma extract_variable_ranges_NoDup_witness :
  Forall (fun dataset => Forall (fun entry => NoDup entry.2) dataset.2)
    [(list_ascii_of_string "a",
      [(list_ascii_of_string "size",
        [list_ascii_of_string "2"; list_ascii_of_string "4"]);
       (list_ascii_of_string "graph", [list_ascii_of_string "ring"])])].
Proof.
  refine (extract_variable_ranges_NoDup float_of_integer Z.ltb example_store
            ["a:a.hdf5"]
            {| printed := [("a", [("size", ["2"; "4"]); ("graph", ["ring"])])];
               returned := None |} _).
  by vm_compute.
Defined.

(** ** Variable-range aggregator: the order is that of the keys *)

(** Two sorted lists with the same elements are equal when no two
    distinct elements are related both ways. *)
Lemma sorted_lists_equal (R : str → str → Prop) (l1 l2 : list str) :
  (∀ x y, x ∈ l1 → y ∈ l1 → R x y → R y x → x = y) →
  StronglySorted R l1 → StronglySorted R l2 → l1 ≡ₚ l2 → l1 = l2.
Proof.
  revert l2. induction l1 as [|x l1 IH]; intros l2 Hanti Hs1 Hs2 Hperm.
  - symmetry. by apply Permutation_nil.
  - destruct l2 as [|y l2].
    { symmetry in Hperm. by apply Permutation_nil in Hperm. }
    apply StronglySorted_inv in Hs1 as [Hs1 Hx].
    apply StronglySorted_inv in Hs2 as [Hs2 Hy].
    rewrite Forall_forall in Hx, Hy.
    assert (Hyin : y ∈ x :: l1) by (rewrite Hperm; left).
    assert (Hxin : x ∈ y :: l2) by (rewrite <- Hperm; left).
    assert (x = y) as <-.
    { apply elem_of_cons in Hyin as [->|Hyin]; [done|].
      apply elem_of_cons in Hxin as [->|Hxin]; [done|].
      apply Hanti; [left|by right|by apply Hx|by apply Hy]. }
    f_equal. apply IH; [|done|done|by apply Permutation_cons_inv in Hperm].
    intros a b Ha Hb. apply Hanti; by right.
Qed.

(** X22: the printed order of the values of a variable does not depend
    on the order in which the set of values is iterated, as long as no
    two of the values have keys that compare as equal. *)
Theorem sorted_order_independent {F : Type} (float : str → option F)
  (float_lt : F → F → bool) (values1 values2 : list str) :
  (∀ a b, float_lt a b = true → float_lt b a = false) →
  (∀ a b c, float_lt a c = true → float_lt a b = true ∨ float_lt b c = true) →
  (∀ x y, x ∈ values1 → y ∈ values1 → x ≠ y →
          key_lt float float_lt x y = true ∨ key_lt float float_lt y x = true) →
  values1 ≡ₚ values2 →
  sorted (key_lt float float_lt) values1
  = sorted (key_lt float float_lt) values2.
Proof.
  intros Hasym Hnegtrans Htotal Hperm.
  apply (sorted_lists_equal
           (fun x y => key_lt float float_lt y x = false)).
  - intros x1 x2 Hx1 Hx2 H12 H21.
    rewrite sorted_Permutation in Hx1, Hx2.
    destruct (decide (x1 = x2)) as [|Hne]; [done|].
    destruct (Htotal x1 x2 Hx1 Hx2 Hne); congruence.
  - apply sorted_StronglySorted;
      [by apply key_lt_asym|by apply key_lt_negtrans].
  - apply sorted_StronglySorted;
      [by apply key_lt_asym|by apply key_lt_negtrans].
  - by rewrite !sorted_Permutation.
Qed.

Lemma sorted_order_independent_witness :
  sorted (key_lt float_of_integer Z.ltb) ["10"; "pbc"; "9"]
  = sorted (key_lt float_of_integer Z.ltb) ["pbc"; "9"; "10"].
Proof.
  apply sorted_order_independent.
  - intros a b. lia.
  - intros a b c. lia.
  - intros x y Hx Hy Hne.
    repeat (apply elem_of_cons in Hx as [->|Hx]);
      repeat (apply elem_of_cons in Hy as [->|Hy]);
      try done; try (by inversion Hx); try (by inversion Hy);
      vm_compute; auto.
  - apply (bool_decide_unpack _). by vm_compute.
Defined.

(** ** Variable-range aggregator: the exceptions it can raise *)

Lemma scan_entry_Raise (h5_keys : str → option (list str))
  (results : Dict.t (Dict.t (list str))) (entry : str) (e : exn) :
  scan_entry h5_keys results entry = Raise e → entry_fails h5_keys entry e.
Proof.
  unfold scan_entry, entry_fails.
  destruct (split ":" entry) as [|function_name [|file_path rest]].
  - intros [= <-]. left. split; [done|]. simpl. lia.
  - intros [= <-]. left. split; [done|]. simpl. lia.
  - destruct rest as [|fixed rest]; simpl.
    + destruct (h5_keys file_path) eqn:E; [done|].
      intros [= <-]. right. right. split; [done|]. by exists file_path.
    + destruct (split "=" fixed) as [|a [|b [|c l]]] eqn:Es; simpl;
        try (intros [= <-]; right; left; split; [done|];
             exists fixed; split; [done|]; rewrite Es; simpl; lia).
      destruct (h5_keys file_path) eqn:E; [done|].
      intros [= <-]. right. right. split; [done|]. by exists file_path.
Qed.

Lemma scan_entries_Raise (h5_keys : str → option (list str))
  (file_input : list str) (results : Dict.t (Dict.t (list str))) (e : exn) :
  scan_entries h5_keys results file_input = Raise e →
  ∃ entry, entry ∈ file_input ∧ entry_fails h5_keys entry e.
Proof.
  revert results.
  induction file_input as [|entry file_input IH]; intros results; simpl.
  - done.
  - destruct (scan_entry h5_keys results entry) as [r|e'] eqn:E; simpl.
    + intros (entry' & Hin & Hfail)%IH. exists entry'. split; [by right|done].
    + intros [= ->]. exists entry. split; [left|by eapply scan_entry_Raise].
Qed.

(** X23: the aggregator raises nothing but [IndexError], [ValueError]
    and [OSError], and each for a reason found in one entry of its
    input: an entry with fewer than two parts between colons, a third
    part that does not split at [=] into exactly two, or a file that
    cannot be opened. *)
Theorem extract_variable_ranges_Raise {F : Type}
  (float : str → option F) (float_lt : F → F → bool)
  (h5_keys : str → option (list str)) (file_input : list str) (e : exn) :
  extract_variable_ranges float float_lt h5_keys file_input = Raise e →
  ∃ entry, entry ∈ file_input ∧ entry_fails h5_keys entry e.
Proof.
  unfold extract_variable_ranges.
  destruct (scan_entries h5_keys [] file_input) as [results|e'] eqn:E;
    simpl; [done|].
  intros [= ->]. by eapply scan_entries_Raise.
Qed.

Lemma extract_variable_ranges_Raise_witness :
  ∃ entry, entry ∈ [list_ascii_of_string "a:a.hdf5";
                    list_ascii_of_string "c:c.hdf5"]
           ∧ entry_fails example_store entry OSError.
Proof.
  refine (extract_variable_ranges_Raise float_of_integer Z.ltb example_store
            ["a:a.hdf5"; "c:c.hdf5"] OSError _).
  by vm_compute.
Defined.

(** X24: on its sample input [view_hdf5_structure] fails only when one
    of the three files it names cannot be opened, and then with
    [OSError]: the sample entries are well formed.  When it ends, it
    returns [None]. *)
Theorem view_hdf5_structure_errors {F : Type}
  (float : str → option F) (float_lt : F → F → bool)
  (h5_keys : str → option (list str)) :
  match view_hdf5_structure float float_lt h5_keys with
  | Ok o => returned o = None
  | Raise e =>
      e = OSError
      ∧ ∃ file_path,
          file_path ∈ [list_ascii_of_string "downloaded_hamlib_files/tfim.hdf5";
                       list_ascii_of_string "downloaded_hamlib_files/FH_D-1.hdf5";
                       list_ascii_of_string
                         "downloaded_hamlib_files/all-vib-h2o.hdf5"]
          ∧ h5_keys file_path = None
  end.
Proof.
  unfold view_hdf5_structure, extract_variable_ranges.
  destruct (scan_entries _ _ _) as [results|e] eqn:E; cbn [bind]; [done|].
  - apply scan_entries_Raise in E as (entry & Hin & Hfail).
    repeat (apply elem_of_cons in Hin as [->|Hin]); [..|inversion Hin];
      (destruct Hfail as [[_ Hlen]|[(_ & fixed & Hfixed & Hlen)
                                   |(-> & path & Hpath & Hnone)]];
       [vm_compute in Hlen; lia
       |vm_compute in Hfixed; try done; injection Hfixed as <-;
        exfalso; apply Hlen; reflexivity
       |split; [done|]; vm_compute in Hpath; injection Hpath as <-;
        eexists; split; [|exact Hnone];
        apply (bool_decide_unpack _); by vm_compute]).
Qed.

(** ** Format normaliser: canonical text is wrapped again *)




